(** * Hashgraph chat client and signal relay: event store, hashing, signing

    A shallow embedding of the Go sources
    - [main.go] (the client: [Event], [Hashgraph], [NewHashgraph],
      [AddEvent], [hashEvent], [signEvent], [verifyEventSignature], and the
      two goroutines of [main]: the reader with its ["event"] case, and the
      input loop that builds, stores and sends an event), and
    - the signal server ([registerNode], [unregisterNode] and the loop of
      [signalHandler] with its ["event"] case),
    together with the parts of the Go standard library they call
    ([encoding/hex], [strconv], [math/big], [crypto/sha256], [crypto/ecdsa]
    on P-256).

    Go values are modelled as follows: [string] as [string], [[]byte] as
    [list byte], [int] as [Z], a [big.Int] as [Z], a pointer to an [Event]
    as an address in an explicit heap, [map[K]V] as [gmap K V], [error] as
    the error text.  Calls that leave the program (the network, WebRTC, the
    server-side store) enter as their outcomes. *)

From Stdlib Require Import ZArith List Ascii String Lia Bool.
From Stdlib.Strings Require Import Byte.
From Bignums Require Import BigZ.
From stdpp Require Import gmap strings list fin_maps.

Import ListNotations.
Local Open Scope string_scope.
Local Open Scope list_scope.
Local Open Scope Z_scope.

(* ===================================================================== *)
(** * Bytes *)
(* ===================================================================== *)

Definition Z_of_byte (b : byte) : Z := Z.of_N (Byte.to_N b).

Definition byte_of_Z (z : Z) : byte :=
  match Byte.of_N (Z.to_N (Z.land z 255)) with
  | Some b => b
  | None => x00
  end.

(** [[]byte(s)] for a Go string [s]. *)
Definition bytes_of_string (s : string) : list byte := list_byte_of_string s.

(** Big-endian encoding of [x] on exactly [n] bytes (the low [8*n] bits). *)
Fixpoint be_fixed (n : nat) (x : Z) (acc : list byte) : list byte :=
  match n with
  | O => acc
  | S n' => be_fixed n' (Z.shiftr x 8) (byte_of_Z x :: acc)
  end.

(** Big-endian decoding. *)
Definition be_decode (bs : list byte) : Z :=
  fold_left (fun acc b => Z.lor (Z.shiftl acc 8) (Z_of_byte b)) bs 0.

(* ===================================================================== *)
(** * encoding/hex *)
(* ===================================================================== *)

Module hex.

Definition hextable : string := "0123456789abcdef".

Definition digit (n : Z) : ascii :=
  match String.get (Z.to_nat n) hextable with
  | Some c => c
  | None => "0"%char
  end.

(** [hex.EncodeToString]: two lower-case digits per byte. *)
Fixpoint EncodeToString (src : list byte) : string :=
  match src with
  | [] => EmptyString
  | b :: rest =>
      String (digit (Z.shiftr (Z_of_byte b) 4))
        (String (digit (Z.land (Z_of_byte b) 15)) (EncodeToString rest))
  end.

(** [fromHexChar]: digits, [a-f] and [A-F]. *)
Definition fromHexChar (c : ascii) : option Z :=
  let n := Z.of_N (N_of_ascii c) in
  if (48 <=? n) && (n <=? 57) then Some (n - 48)
  else if (97 <=? n) && (n <=? 102) then Some (n - 97 + 10)
  else if (65 <=? n) && (n <=? 70) then Some (n - 65 + 10)
  else None.

(** [hex.DecodeString]: [None] stands for a non-nil [error]
    ([ErrLength] on an odd length, [InvalidByteError] on a bad digit); the
    callers here drop the partial output in that case. *)
Fixpoint DecodeString (s : string) : option (list byte) :=
  match s with
  | EmptyString => Some []
  | String _ EmptyString => None
  | String c1 (String c2 rest) =>
      match fromHexChar c1, fromHexChar c2 with
      | Some a, Some b =>
          match DecodeString rest with
          | Some bs => Some (byte_of_Z (Z.lor (Z.shiftl a 4) b) :: bs)
          | None => None
          end
      | _, _ => None
      end
  end.

End hex.

(* ===================================================================== *)
(** * strconv *)
(* ===================================================================== *)

Module strconv.

Definition digit (c : ascii) : option Z :=
  let n := Z.of_N (N_of_ascii c) in
  if (48 <=? n) && (n <=? 57) then Some (n - 48) else None.

Fixpoint digits (s : string) (acc : Z) : option Z :=
  match s with
  | EmptyString => Some acc
  | String c rest =>
      match digit c with
      | Some d => digits rest (acc * 10 + d)
      | None => None
      end
  end.

(** [strconv.Atoi]: an optional sign, then decimal digits only, and a value
    that fits a 64-bit [int]; [None] stands for a non-nil [error] (syntax or
    range). *)
Definition Atoi (s : string) : option Z :=
  let '(neg, body) :=
    match s with
    | String "-" rest => (true, rest)
    | String "+" rest => (false, rest)
    | _ => (false, s)
    end in
  match body with
  | EmptyString => None
  | _ =>
      match digits body 0 with
      | Some n =>
          let v := if neg then - n else n in
          if (- 2 ^ 63 <=? v) && (v <? 2 ^ 63) then Some v else None
      | None => None
      end
  end.

End strconv.

(* ===================================================================== *)
(** * math/big *)
(* ===================================================================== *)

Module big.

(** Number of bytes of the minimal big-endian encoding of [|x|]. *)
Definition byteLen (x : Z) : nat :=
  if Z.abs x =? 0 then O else Z.to_nat (Z.log2 (Z.abs x) / 8 + 1).

(** [Int.Bytes] of a [big.Int]: the absolute value, big-endian, no leading zero. *)
Definition Bytes (x : Z) : list byte := be_fixed (byteLen x) (Z.abs x) [].

(** [big.NewInt(0).SetBytes(buf)]. *)
Definition SetBytes (buf : list byte) : Z := be_decode buf.

End big.

(* ===================================================================== *)
(** * crypto/sha256 (FIPS 180-4) *)
(* ===================================================================== *)

Module sha256.

Definition mask32 : Z := 0xffffffff.

(** [uint32] arithmetic wraps around. *)
Definition wrap (x : Z) : Z := Z.land x mask32.
Definition add32 (x y : Z) : Z := wrap (x + y).
Definition rotr (n x : Z) : Z := wrap (Z.lor (Z.shiftr x n) (Z.shiftl x (32 - n))).

Definition Ch (x y z : Z) : Z := Z.lxor (Z.land x y) (Z.land (Z.lxor x mask32) z).
Definition Maj (x y z : Z) : Z := Z.lxor (Z.lxor (Z.land x y) (Z.land x z)) (Z.land y z).
Definition bsig0 (x : Z) : Z := Z.lxor (Z.lxor (rotr 2 x) (rotr 13 x)) (rotr 22 x).
Definition bsig1 (x : Z) : Z := Z.lxor (Z.lxor (rotr 6 x) (rotr 11 x)) (rotr 25 x).
Definition ssig0 (x : Z) : Z := Z.lxor (Z.lxor (rotr 7 x) (rotr 18 x)) (Z.shiftr x 3).
Definition ssig1 (x : Z) : Z := Z.lxor (Z.lxor (rotr 17 x) (rotr 19 x)) (Z.shiftr x 10).

(** The first 64 primes, by trial division. *)
Definition isPrime (n : Z) : bool :=
  (2 <=? n) && forallb (fun d => negb (n mod d =? 0)) (map Z.of_nat (seq 2 (Z.to_nat n - 2))).

Definition primes : list Z := filter isPrime (map Z.of_nat (seq 2 310)).

(** The integer cube root of [n < 2^120], found bit by bit from the top. *)
Fixpoint cbrt_bits (i : nat) (n r : Z) : Z :=
  match i with
  | O => r
  | S i' =>
      let r' := Z.lor r (Z.shiftl 1 (Z.of_nat i')) in
      cbrt_bits i' n (if r' * r' * r' <=? n then r' else r)
  end.

Definition cbrt (n : Z) : Z := cbrt_bits 40 n 0.

(** The round constants: the first 32 bits of the fractional parts of the
    cube roots of the first 64 primes. *)
Definition K : list Z :=
  Eval vm_compute in map (fun p => wrap (cbrt (Z.shiftl p 96))) primes.

(** The initial hash value: the first 32 bits of the fractional parts of
    the square roots of the first 8 primes. *)
Definition init : list Z :=
  Eval vm_compute in map (fun p => wrap (Z.sqrt (Z.shiftl p 64))) (firstn 8 primes).

(** Padding: a [0x80] byte, zeros up to 56 mod 64, the bit length on 8 bytes. *)
Definition pad (msg : list byte) : list byte :=
  let len := Z.of_nat (length msg) in
  msg ++ [x80] ++ repeat x00 (Z.to_nat ((55 - len) mod 64)) ++ be_fixed 8 (8 * len) [].

(** The big-endian 32-bit words of a byte sequence. *)
Fixpoint words (n : nat) (bs : list byte) : list Z :=
  match n, bs with
  | S n', b0 :: b1 :: b2 :: b3 :: rest => be_decode [b0; b1; b2; b3] :: words n' rest
  | _, _ => []
  end.

(** Message schedule, most recent word first: [w] holds W[t-1], W[t-2], ... *)
Fixpoint schedule (n : nat) (w : list Z) : list Z :=
  match n with
  | O => w
  | S n' =>
      let wt := add32 (add32 (ssig1 (nth 1 w 0)) (nth 6 w 0))
                      (add32 (ssig0 (nth 14 w 0)) (nth 15 w 0)) in
      schedule n' (wt :: w)
  end.

Record regs := Regs { ra : Z; rb : Z; rc : Z; rd : Z; re : Z; rf : Z; rg : Z; rh : Z }.

Definition round (s : regs) (kw : Z * Z) : regs :=
  let t1 := add32 (add32 (add32 (rh s) (bsig1 (re s))) (add32 (Ch (re s) (rf s) (rg s)) (fst kw))) (snd kw) in
  let t2 := add32 (bsig0 (ra s)) (Maj (ra s) (rb s) (rc s)) in
  Regs (add32 t1 t2) (ra s) (rb s) (rc s) (add32 (rd s) t1) (re s) (rf s) (rg s).

Definition regs_of (h : list Z) : regs :=
  Regs (nth 0 h 0) (nth 1 h 0) (nth 2 h 0) (nth 3 h 0) (nth 4 h 0) (nth 5 h 0) (nth 6 h 0) (nth 7 h 0).

Definition list_of (s : regs) : list Z :=
  [ra s; rb s; rc s; rd s; re s; rf s; rg s; rh s].

(** One 64-byte block (16 words) folded into the chaining value [h]. *)
Definition block (h : list Z) (m : list Z) : list Z :=
  let w := rev (schedule 48 (rev m)) in
  let s := fold_left round (combine K w) (regs_of h) in
  map (fun p => add32 (fst p) (snd p)) (combine h (list_of s)).

Fixpoint blocks (n : nat) (h : list Z) (ws : list Z) : list Z :=
  match n with
  | O => h
  | S n' =>
      match ws with
      | [] => h
      | _ => blocks n' (block h (firstn 16 ws)) (skipn 16 ws)
      end
  end.

(** [sha256.Sum256]: the 32-byte digest of [data]. *)
Definition Sum256 (data : list byte) : list byte :=
  let p := pad data in
  let ws := words (length p) p in
  flat_map (fun w => be_fixed 4 w []) (blocks (length ws) init ws).

(** [hash.Hash] as returned by [sha256.New]: the state of a running hash is
    determined by the bytes written so far. *)
Record digest := Digest { written : list byte }.

Definition New : digest := Digest [].
Definition Write (d : digest) (p : list byte) : digest := Digest (written d ++ p).
(** [d.Sum(nil)] *)
Definition Sum (d : digest) : list byte := Sum256 (written d).

End sha256.

(* ===================================================================== *)
(** * crypto/elliptic and crypto/ecdsa on P-256 (FIPS 186-4) *)
(* ===================================================================== *)

(** A Go [error] value, by its text. *)
Definition error := string.

Module elliptic.

(** The parameters of [elliptic.P256()]: the curve y^2 = x^3 - 3x + B over
    the prime field of order [P], base point [(Gx, Gy)] of prime order [N]. *)
Definition P : Z := 0xffffffff00000001000000000000000000000000ffffffffffffffffffffffff.
Definition N : Z := 0xffffffff00000000ffffffffffffffffbce6faada7179e84f3b9cac2fc632551.
Definition B : Z := 0x5ac635d8aa3a93e7b3ebbd55769886bc651d06b0cc53b0f63bce3c3e27d2604b.
Definition Gx : Z := 0x6b17d1f2e12c4247f8bce6e563a440f277037d812deb33a0f4a13945d898c296.
Definition Gy : Z := 0x4fe342e2fe1a7f9b8ee7eb4a7c0f9e162bce33576b315ececbb6406837bf51f5.

(** Field arithmetic runs on machine-word big integers. *)
Definition redP (x : bigZ) : bigZ := BigZ.modulo x (BigZ.of_Z P).
Definition redN (x : bigZ) : bigZ := BigZ.modulo x (BigZ.of_Z N).

(** [b ^ e] reduced by [red] at every step. *)
Fixpoint pow (red : bigZ -> bigZ) (b : bigZ) (e : positive) : bigZ :=
  match e with
  | xH => red b
  | xO e' => let t := pow red b e' in red (BigZ.mul t t)
  | xI e' => let t := pow red b e' in red (BigZ.mul (red (BigZ.mul t t)) b)
  end.

(** Inverses modulo the primes [P] and [N] (Fermat). *)
Definition invP (x : bigZ) : bigZ := pow redP x (Z.to_pos (P - 2)).
Definition invN (x : bigZ) : bigZ := pow redN x (Z.to_pos (N - 2)).

(** Points in Jacobian coordinates: [(X, Y, Z)] stands for
    [(X / Z^2, Y / Z^3)], and [Z = 0] for the point at infinity. *)
Record point := Point { px : bigZ; py : bigZ; pz : bigZ }.

Definition infinity : point := Point BigZ.one BigZ.one BigZ.zero.
Definition isInfinity (p : point) : bool := BigZ.eqb (pz p) BigZ.zero.

Definition Double (p : point) : point :=
  if isInfinity p || BigZ.eqb (py p) BigZ.zero then infinity
  else
    let yy := redP (BigZ.mul (py p) (py p)) in
    let zz := redP (BigZ.mul (pz p) (pz p)) in
    let s := redP (BigZ.mul (BigZ.of_Z 4) (BigZ.mul (px p) yy)) in
    let m := redP (BigZ.mul (BigZ.of_Z 3)
                     (BigZ.mul (BigZ.sub (px p) zz) (BigZ.add (px p) zz))) in
    let x3 := redP (BigZ.sub (BigZ.mul m m) (BigZ.mul (BigZ.of_Z 2) s)) in
    let y3 := redP (BigZ.sub (BigZ.mul m (BigZ.sub s x3))
                      (BigZ.mul (BigZ.of_Z 8) (BigZ.mul yy yy))) in
    let z3 := redP (BigZ.mul (BigZ.of_Z 2) (BigZ.mul (py p) (pz p))) in
    Point x3 y3 z3.

Definition Add (p q : point) : point :=
  if isInfinity p then q
  else if isInfinity q then p
  else
    let z1z1 := redP (BigZ.mul (pz p) (pz p)) in
    let z2z2 := redP (BigZ.mul (pz q) (pz q)) in
    let u1 := redP (BigZ.mul (px p) z2z2) in
    let u2 := redP (BigZ.mul (px q) z1z1) in
    let s1 := redP (BigZ.mul (py p) (redP (BigZ.mul (pz q) z2z2))) in
    let s2 := redP (BigZ.mul (py q) (redP (BigZ.mul (pz p) z1z1))) in
    if BigZ.eqb u1 u2 then (if BigZ.eqb s1 s2 then Double p else infinity)
    else
      let h := redP (BigZ.sub u2 u1) in
      let r := redP (BigZ.sub s2 s1) in
      let hh := redP (BigZ.mul h h) in
      let hhh := redP (BigZ.mul h hh) in
      let v := redP (BigZ.mul u1 hh) in
      let x3 := redP (BigZ.sub (BigZ.sub (BigZ.mul r r) hhh) (BigZ.mul (BigZ.of_Z 2) v)) in
      let y3 := redP (BigZ.sub (BigZ.mul r (BigZ.sub v x3)) (BigZ.mul s1 hhh)) in
      let z3 := redP (BigZ.mul h (redP (BigZ.mul (pz p) (pz q)))) in
      Point x3 y3 z3.

Fixpoint mulPos (k : positive) (p : point) : point :=
  match k with
  | xH => p
  | xO k' => Double (mulPos k' p)
  | xI k' => Add (Double (mulPos k' p)) p
  end.

(** [k * p] for a scalar [k >= 0]. *)
Definition ScalarMult (p : point) (k : Z) : point :=
  match k with
  | Zpos k' => mulPos k' p
  | _ => infinity
  end.

Definition ofAffine (x y : Z) : point := Point (BigZ.of_Z x) (BigZ.of_Z y) BigZ.one.

(** The affine x coordinate; the point must not be at infinity. *)
Definition affineX (p : point) : Z :=
  let zi := invP (pz p) in
  BigZ.to_Z (redP (BigZ.mul (px p) (redP (BigZ.mul zi zi)))).

Definition affineY (p : point) : Z :=
  let zi := invP (pz p) in
  BigZ.to_Z (redP (BigZ.mul (py p) (redP (BigZ.mul zi (redP (BigZ.mul zi zi)))))).

Definition ScalarBaseMult (k : Z) : point := ScalarMult (ofAffine Gx Gy) k.

(** [IsOnCurve]: coordinates in range and satisfying the curve equation. *)
Definition IsOnCurve (x y : Z) : bool :=
  (0 <=? x) && (x <? P) && (0 <=? y) && (y <? P) &&
  ((y * y) mod P =? (x * x * x - 3 * x + B) mod P).

End elliptic.

Module ecdsa.

Record PublicKey := mkPublicKey { X : Z; Y : Z }.
Record PrivateKey := mkPrivateKey { Public : PublicKey; D : Z }.

(** The public key of the private scalar [d]: the point [d * G]. *)
Definition keyOf (d : Z) : PrivateKey :=
  let q := elliptic.ScalarBaseMult d in
  mkPrivateKey (mkPublicKey (elliptic.affineX q) (elliptic.affineY q)) d.

(** [hashToInt]: the leftmost 256 bits of the digest as an integer. *)
Definition hashToInt (hash : list byte) : Z := be_decode (firstn 32 hash).

(** The per-signature secret drawn from [rand.Reader].  The reader is a
    supply of candidate scalars; candidates outside [1, N-1] are rejected
    and drawn again; an exhausted supply is a read error. *)
Fixpoint randomScalar (rand : list Z) : option Z * list Z :=
  match rand with
  | [] => (None, [])
  | k :: rest =>
      if (0 <? k) && (k <? elliptic.N) then (Some k, rest) else randomScalar rest
  end.

(** [ecdsa.Sign(rand.Reader, priv, hash)]: [(r, s, err)], and what is left
    of the random supply.  A private scalar outside [1, N-1] is refused
    before anything is drawn. *)
Definition Sign (rand : list Z) (priv : PrivateKey) (hash : list byte)
  : (Z * Z + error) * list Z :=
  if negb ((0 <? D priv) && (D priv <? elliptic.N))
  then (inr "ecdsa: invalid private key"%string, rand)
  else
  match randomScalar rand with
  | (None, rest) => (inr "ecdsa: reading from the random source failed"%string, rest)
  | (Some k, rest) =>
      let r := elliptic.affineX (elliptic.ScalarBaseMult k) mod elliptic.N in
      if r =? 0 then (inr "ecdsa: internal error: r is zero"%string, rest)
      else
        let e := BigZ.of_Z (hashToInt hash) in
        let rd := elliptic.redN (BigZ.mul (BigZ.of_Z r) (BigZ.of_Z (D priv))) in
        let s := BigZ.to_Z
                   (elliptic.redN (BigZ.mul (elliptic.invN (BigZ.of_Z k))
                                     (elliptic.redN (BigZ.add e rd)))) in
        if s =? 0 then (inr "ecdsa: internal error: s is zero"%string, rest)
        else (inl (r, s), rest)
  end.

(** [ecdsa.Verify(pub, hash, r, s)]. *)
Definition Verify (pub : PublicKey) (hash : list byte) (r s : Z) : bool :=
  if (r <=? 0) || (s <=? 0) then false
  else if (elliptic.N <=? r) || (elliptic.N <=? s) then false
  else if negb (elliptic.IsOnCurve (X pub) (Y pub)) then false
  else
    let e := BigZ.of_Z (hashToInt hash) in
    let w := elliptic.invN (BigZ.of_Z s) in
    let u1 := BigZ.to_Z (elliptic.redN (BigZ.mul e w)) in
    let u2 := BigZ.to_Z (elliptic.redN (BigZ.mul (BigZ.of_Z r) w)) in
    let p := elliptic.Add (elliptic.ScalarBaseMult u1)
                          (elliptic.ScalarMult (elliptic.ofAffine (X pub) (Y pub)) u2) in
    if elliptic.isInfinity p then false
    else elliptic.affineX p mod elliptic.N =? r.

End ecdsa.

(* ===================================================================== *)
(** * The client ([main.go]) *)
(* ===================================================================== *)

Module time.

(** A [time.Time].  The program reads a timestamp only through its
    [String] method, so a time value is represented by that rendering
    (wall clock, zone and, when present, the monotonic reading). *)
Record Time := mkTime { String : string }.

End time.

(** [type Event struct] *)
Record Event := mkEvent {
  Transactions : list (list byte);
  SelfParent : string;
  OtherParent : string;
  Creator : string;
  Timestamp : time.Time;
  Signature : string;
  Hash : string;
  RoundCreated : Z;
  Famous : option bool;
  Witness : bool;
  LamportTime : Z
}.

(** [event.Hash = h] and [event.Signature = s] on the pointed-to struct. *)
Definition setHash (h : string) (e : Event) : Event :=
  mkEvent (Transactions e) (SelfParent e) (OtherParent e) (Creator e) (Timestamp e)
          (Signature e) h (RoundCreated e) (Famous e) (Witness e) (LamportTime e).

Definition setSignature (s : string) (e : Event) : Event :=
  mkEvent (Transactions e) (SelfParent e) (OtherParent e) (Creator e) (Timestamp e)
          s (Hash e) (RoundCreated e) (Famous e) (Witness e) (LamportTime e).

(** [event.Transactions = txs]: what a sender does to a copy of an event
    before it puts it on the wire again. *)
Definition setTransactions (txs : list (list byte)) (e : Event) : Event :=
  mkEvent txs (SelfParent e) (OtherParent e) (Creator e) (Timestamp e)
          (Signature e) (Hash e) (RoundCreated e) (Famous e) (Witness e) (LamportTime e).

(** A non-nil pointer to an [Event] is an address in the heap of event structs. *)
Definition ptr := positive.

(** What the program's functions read and change besides the store: the
    event structs behind the pointers, and the random source. *)
Record World := mkWorld {
  heap : gmap ptr Event;
  randReader : list Z
}.

(** [type Hashgraph struct] (the mutex is not modelled: every access to the
    maps happens with it held, so calls of [AddEvent] run one at a time). *)
Record Hashgraph := mkHashgraph {
  Events : gmap string ptr;
  Rounds : gmap Z (list ptr);
  privateKey : ecdsa.PrivateKey;
  publicKey : ecdsa.PublicKey
}.

(** How a call ends: it returns a value, or the goroutine panics (nil
    pointer dereference). *)
Inductive run (A : Type) : Type :=
| Returns (a : A)
| Panics.
Arguments Returns {A} a.
Arguments Panics {A}.

(** [func NewHashgraph] *)
Definition NewHashgraph (privateKey : ecdsa.PrivateKey) (publicKey : ecdsa.PublicKey)
  : Hashgraph :=
  mkHashgraph ∅ ∅ privateKey publicKey.

(** [func hashEvent]; [event] is the struct behind the pointer. *)
Definition hashEvent (event : Event) : string :=
  let hash := sha256.New in
  let hash := sha256.Write hash (bytes_of_string (Creator event)) in
  let hash := sha256.Write hash (bytes_of_string (SelfParent event)) in
  let hash := sha256.Write hash (bytes_of_string (OtherParent event)) in
  let hash := sha256.Write hash (bytes_of_string (time.String (Timestamp event))) in
  let hash := fold_left (fun hash tx => sha256.Write hash tx) (Transactions event) hash in
  hex.EncodeToString (sha256.Sum hash).

(** [func signEvent]: [nil] is [None]. *)
Definition signEvent (event : ptr) (privateKey : ecdsa.PrivateKey) (w : World)
  : run (option error) * World :=
  match heap w !! event with
  | None => (Panics, w)
  | Some ev =>
      let hash := sha256.Sum256 (bytes_of_string (Hash ev)) in
      match ecdsa.Sign (randReader w) privateKey hash with
      | (inr err, rest) => (Returns (Some err), mkWorld (heap w) rest)
      | (inl (r, s), rest) =>
          let signature := big.Bytes r ++ big.Bytes s in
          (Returns None,
           mkWorld (<[event := setSignature (hex.EncodeToString signature) ev]> (heap w)) rest)
      end
  end.

(** [func verifyEventSignature]; [event] is the struct behind the pointer. *)
Definition verifyEventSignature (event : Event) (publicKey : ecdsa.PublicKey) : bool :=
  let hash := sha256.Sum256 (bytes_of_string (Hash event)) in
  match hex.DecodeString (Signature event) with
  | None => false
  | Some signature =>
      let r := big.SetBytes (firstn (length signature / 2) signature) in
      let s := big.SetBytes (skipn (length signature / 2) signature) in
      ecdsa.Verify publicKey hash r s
  end.

(** [func (hg *Hashgraph) AddEvent] *)
Definition AddEvent (hg : Hashgraph) (event : ptr) (w : World)
  : run (option error) * Hashgraph * World :=
  match heap w !! event with
  | None => (Panics, hg, w)
  | Some ev =>
      let eventHash := hashEvent ev in
      let w := mkWorld (<[event := setHash eventHash ev]> (heap w)) (randReader w) in
      match signEvent event (privateKey hg) w with
      | (Panics, w) => (Panics, hg, w)
      | (Returns (Some err), w) => (Returns (Some err), hg, w)
      | (Returns None, w) =>
          match heap w !! event with
          | None => (Panics, hg, w)
          | Some ev =>
              (Returns None,
               mkHashgraph
                 (<[Hash ev := event]> (Events hg))
                 (<[RoundCreated ev := default [] (Rounds hg !! RoundCreated ev) ++ [event]]>
                    (Rounds hg))
                 (privateKey hg) (publicKey hg),
               w)
          end
      end
  end.

(** What the reader goroutine does after a message. *)
Inductive control : Type :=
| NextMessage   (* the loop reads the next message *)
| Return        (* [return]: the goroutine ends *)
| Crash.        (* panic *)

(** [case "event":] of the reader goroutine in [func main]; [msgEvent] is
    [msg.Event] ([None] for nil), [publicKey] the variable captured from
    [main].  The last component is what was logged. *)
Definition main_case_event (msgEvent : option ptr) (publicKey : ecdsa.PublicKey)
    (hashgraph : Hashgraph) (w : World)
  : control * Hashgraph * World * list string :=
  let log := ["Receive event"%string] in
  match msgEvent with
  | None => (Crash, hashgraph, w, log)
  | Some p =>
      match heap w !! p with
      | None => (Crash, hashgraph, w, log)
      | Some ev =>
          if negb (verifyEventSignature ev publicKey)
          then (Return, hashgraph, w, log ++ ["Event signature verification failed"%string])
          else
            match AddEvent hashgraph p w with
            | (Panics, hg, w) => (Crash, hg, w, log)
            | (Returns (Some err), hg, w) =>
                (Return, hg, w, log ++ [("Failed to add event: " ++ err)%string])
            | (Returns None, hg, w) => (NextMessage, hg, w, log)
            end
      end
  end.

(* ===================================================================== *)
(** * The signal server ([signalHandler]) *)
(* ===================================================================== *)

Module server.

(** A live websocket connection. *)
Definition Conn := nat.

Section Relay.

(** The server's own [server.Event] type. *)
Context {Event : Type}.

(** [type Message struct] *)
Record Message := mkMessage {
  Type_ : string;
  SDP : string;
  Candidate : string;
  SelfParent : string;
  OtherParent : string;
  Event_ : option Event;
  TargetNode : string
}.

(** What one pass through the loop body does to the outside. *)
Inductive effect : Type :=
| Log (line : string)
| WriteJSON (conn : Conn) (msg : Message).

(** [case "event":] of [func signalHandler].  [addEvent] is the error
    returned by the method [server.HashgraphManagerInstance.AddEvent] (what
    the method does to the server's own store is not part of this model),
    [writeJSON] the outcome of [targetConn.WriteJSON(msg)]; [sessions] is
    [sessionManager.sessions]. *)
Definition signalHandler_case_event
    (addEvent : string -> string -> string -> list (list byte) -> ecdsa.PrivateKey -> option error)
    (writeJSON : Conn -> Message -> option error)
    (sessions : gmap string Conn) (nodeID : string) (msg : Message)
  : list effect :=
  let log0 := [Log "Received event"] in
  let transactions : list (list byte) := [] in
  let privateKey := ecdsa.mkPrivateKey (ecdsa.mkPublicKey 0 0) 0 in
  let err := addEvent nodeID (SelfParent msg) (OtherParent msg) transactions privateKey in
  let log1 :=
    match err with
    | Some e => [Log ("Failed to add event to Hashgraph: " ++ e)%string]
    | None => []
    end in
  if String.eqb (TargetNode msg) nodeID
  then log0 ++ log1 ++ [Log "Target node is itself, handling event directly"]
  else
    match sessions !! TargetNode msg with
    | Some targetConn =>
        log0 ++ log1 ++ [WriteJSON targetConn msg] ++
        match writeJSON targetConn msg with
        | Some e => [Log ("Failed to forward event: " ++ e)%string]
        | None => []
        end
    | None => log0 ++ log1 ++ [Log "Target node does not exist or has disconnected"]
    end.

(** The connections the pass wrote the message to. *)
Definition forwarded (tr : list effect) : list Conn :=
  flat_map (fun e => match e with WriteJSON c _ => [c] | Log _ => [] end) tr.

(** [func registerNode]; [id] is the [uuid.New().String()] it draws. *)
Definition registerNode (id : string) (conn : Conn) (sessions : gmap string Conn)
  : string * gmap string Conn :=
  (id, <[id := conn]> sessions).

(** [func unregisterNode] *)
Definition unregisterNode (id : string) (sessions : gmap string Conn) : gmap string Conn :=
  delete id sessions.

(** What [conn.ReadMessage] and [json.Unmarshal] give one pass of the loop. *)
Inductive received : Type :=
| ReadFails (err : error)
| ParseFails (err : error)
| Parsed (msg : Message).

(** One pass of the [for] loop of [func signalHandler]: whether the loop
    goes on ([false] is [break]), and what the pass did. *)
Definition signalHandler_pass
    (addEvent : string -> string -> string -> list (list byte) -> ecdsa.PrivateKey -> option error)
    (writeJSON : Conn -> Message -> option error)
    (sessions : gmap string Conn) (nodeID : string) (rcv : received)
  : bool * list effect :=
  match rcv with
  | ReadFails err => (false, [Log ("Failed to read message: " ++ err)%string])
  | ParseFails err => (true, [Log ("Failed to parse message: " ++ err)%string])
  | Parsed msg =>
      if String.eqb (Type_ msg) "offer" then (true, [Log "Received offer"])
      else if String.eqb (Type_ msg) "answer" then (true, [Log "Received answer"])
      else if String.eqb (Type_ msg) "candidate" then (true, [Log "Received ICE candidate"])
      else if String.eqb (Type_ msg) "event"
           then (true, signalHandler_case_event addEvent writeJSON sessions nodeID msg)
      else (true, [])
  end.

(** What happens at the relay, one handler at a time: a request whose
    upgrade fails, a connection that is upgraded and registered under the
    id [id], or the handler of [nodeID] getting its next read.  When its
    loop breaks the handler returns and the deferred [unregisterNode] runs.
    (The server-side [RegisterNode] and the closing of the connection are
    not part of the model.) *)
Inductive happening : Type :=
| UpgradeFails (err : error)
| Opens (id : string) (conn : Conn)
| Receives (nodeID : string) (rcv : received).

Definition relay_step
    (addEvent : string -> string -> string -> list (list byte) -> ecdsa.PrivateKey -> option error)
    (writeJSON : Conn -> Message -> option error)
    (sessions : gmap string Conn) (hp : happening)
  : gmap string Conn * list effect :=
  match hp with
  | UpgradeFails err => (sessions, [Log ("Failed to upgrade to WebSocket: " ++ err)%string])
  | Opens id conn => ((registerNode id conn sessions).2, [])
  | Receives nodeID rcv =>
      let '(goes_on, effects) := signalHandler_pass addEvent writeJSON sessions nodeID rcv in
      (if goes_on then sessions else unregisterNode nodeID sessions, effects)
  end.

Fixpoint relay_run
    (addEvent : string -> string -> string -> list (list byte) -> ecdsa.PrivateKey -> option error)
    (writeJSON : Conn -> Message -> option error)
    (sessions : gmap string Conn) (hs : list happening)
  : gmap string Conn * list effect :=
  match hs with
  | [] => (sessions, [])
  | hp :: rest =>
      let '(sessions, effects) := relay_step addEvent writeJSON sessions hp in
      let '(sessions, more) := relay_run addEvent writeJSON sessions rest in
      (sessions, effects ++ more)
  end.

End Relay.

Arguments Message : clear implicits.
Arguments effect : clear implicits.
Arguments received : clear implicits.
Arguments happening : clear implicits.

End server.

(* ===================================================================== *)
(** * The two goroutines of the client ([func main]) *)
(* ===================================================================== *)

(** [nodes[i]] for an [int] index; [None] is the index-out-of-range panic. *)
Definition index_nodes (nodes : list string) (i : Z) : option string :=
  if i <? 0 then None else nodes !! Z.to_nat i.

(** The inner [for] loop of the input goroutine, which asks for the number
    of the target node.  [lines] is what is left of standard input, one
    [scanner.Text()] per successful [scanner.Scan()]; the result is
    [targetNodeIndex] and what is left then.  [None]: the input has ended,
    [Scan] returns false from then on and the loop never leaves. *)
Fixpoint selectTarget (nodes : list string) (lines : list string)
  : option (Z * list string) :=
  match lines with
  | [] => None
  | input :: rest =>
      match strconv.Atoi input with
      | Some index =>
          if (0 <? index) && (index <=? Z.of_nat (length nodes))
          then Some (index - 1, rest)
          else selectTarget nodes rest
      | None => selectTarget nodes rest
      end
  end.

(** How one pass of the outer [for] loop of the input goroutine ends. *)
Inductive input_result : Type :=
| Waiting    (* the input has ended: [Scan] returns false, the loops spin *)
| Again (rest : list string)    (* [continue]: nothing was built *)
| Sent (rest : list string) (msg : server.Message Event) (addErr : option error)
       (hg : Hashgraph) (w : World)
| InputCrash.    (* panic *)

(** One pass of the outer loop.  [nodes] is the list [getNodes] returned at
    start-up, [now] the reading of [time.Now()].  The new event struct
    takes an unused address; the message written to the relay carries the
    struct as it is after [AddEvent], whether [AddEvent] failed ([addErr])
    or not.  The log lines are left out. *)
Definition main_input (nodes : list string) (now : time.Time) (lines : list string)
    (hashgraph : Hashgraph) (w : World) : input_result :=
  match lines with
  | [] => Waiting
  | text :: rest =>
      if String.eqb text "" then Again rest
      else if (length nodes =? 0)%nat then Again rest
      else
        match selectTarget nodes rest with
        | None => Waiting
        | Some (targetNodeIndex, rest) =>
            match index_nodes nodes targetNodeIndex with
            | None => InputCrash
            | Some targetNode =>
                let event := fresh (dom (heap w)) in
                let w :=
                  mkWorld
                    (<[event := mkEvent [bytes_of_string text] "selfParentHash"
                                  "otherParentHash" "userID" now "" "" 0 None false 0]>
                       (heap w))
                    (randReader w) in
                match AddEvent hashgraph event w with
                | (Panics, _, _) => InputCrash
                | (Returns err, hg, w) =>
                    match heap w !! event with
                    | None => InputCrash
                    | Some ev =>
                        Sent rest (server.mkMessage "event" "" "" "" "" (Some ev) targetNode)
                             err hg w
                    end
                end
            end
        end
  end.

(** What [c.ReadMessage], [json.Unmarshal] and the WebRTC calls give one
    pass of the reader goroutine: a failed read, a failed parse, an offer
    (with the outcomes of [CreateAnswer], [SetLocalDescription] and
    [WriteJSON]), a candidate (with the outcome of [AddICECandidate]), an
    event message with its [msg.Event], or a message of any other type.
    An [event] field in a message of another type is never read and its
    struct is left out. *)
Inductive frame : Type :=
| ReadFails (err : error)
| ParseFails (err : error)
| Offer (answer : error + string) (setLocal : option error) (write : option error)
| Candidate (add : option error)
| EventFrame (msgEvent : option Event)
| OtherFrame.

(** One pass of the [for] loop of the reader goroutine.  [json.Unmarshal]
    puts the event of the message in a new struct. *)
Definition main_reader_step (publicKey : ecdsa.PublicKey) (f : frame)
    (hashgraph : Hashgraph) (w : World)
  : control * Hashgraph * World * list string :=
  match f with
  | ReadFails err => (Return, hashgraph, w, [("Failed to read message: " ++ err)%string])
  | ParseFails err => (Return, hashgraph, w, [("Failed to parse message: " ++ err)%string])
  | Offer answer setLocal write =>
      match answer with
      | inl err =>
          (Return, hashgraph, w,
           ["Offer received"; ("Handling of SDP exchange failures: " ++ err)%string])
      | inr sdp =>
          match setLocal with
          | Some err =>
              (Return, hashgraph, w,
               ["Offer received"; ("Failed to set local SDP: " ++ err)%string])
          | None =>
              match write with
              | Some err =>
                  (Return, hashgraph, w,
                   ["Offer received"; ("Failed to send answer: " ++ err)%string])
              | None => (NextMessage, hashgraph, w, ["Offer received"])
              end
          end
      end
  | Candidate add =>
      match add with
      | Some err =>
          (Return, hashgraph, w,
           ["Received ICE candidate"; ("Failed to add ICE candidate: " ++ err)%string])
      | None => (NextMessage, hashgraph, w, ["Received ICE candidate"])
      end
  | EventFrame None => main_case_event None publicKey hashgraph w
  | EventFrame (Some ev) =>
      let p := fresh (dom (heap w)) in
      main_case_event (Some p) publicKey hashgraph
        (mkWorld (<[p := ev]> (heap w)) (randReader w))
  | OtherFrame => (NextMessage, hashgraph, w, [])
  end.

(** The reader goroutine over the frames that arrive.  [NextMessage] at the
    end: the goroutine is blocked in [ReadMessage]. *)
Fixpoint main_reader (publicKey : ecdsa.PublicKey) (frames : list frame)
    (hashgraph : Hashgraph) (w : World)
  : control * Hashgraph * World * list string :=
  match frames with
  | [] => (NextMessage, hashgraph, w, [])
  | f :: rest =>
      match main_reader_step publicKey f hashgraph w with
      | (NextMessage, hg, w, log) =>
          let '(c, hg, w, more) := main_reader publicKey rest hg w in
          (c, hg, w, log ++ more)
      | stopped => stopped
      end
  end.

(* ===================================================================== *)
(** * Specification-level notions *)
(* ===================================================================== *)

(** The bytes the content hash covers, in the order of the specification:
    creator, selfParent, otherParent, timestamp, then the transactions end
    to end. *)
Definition preimage (e : Event) : list byte :=
  bytes_of_string (Creator e) ++ bytes_of_string (SelfParent e) ++
  bytes_of_string (OtherParent e) ++ bytes_of_string (time.String (Timestamp e)) ++
  concat (Transactions e).

(** The store invariant: every key of [Events] leads to an event struct
    whose [Hash] field is that key, and whose fields hash to that key. *)
Definition keys_are_digests (hg : Hashgraph) (w : World) : Prop :=
  forall (k : string) (p : ptr),
    Events hg !! k = Some p ->
    exists ev, heap w !! p = Some ev /\ Hash ev = k /\ hashEvent ev = k.

(** The store of a node together with the world around it. *)
Record State := mkState { store : Hashgraph; world : World }.

(** What the program does to a store: it creates a new event struct
    ([&Event{...}], or [json.Unmarshal] into a new message), or it calls
    [AddEvent]. *)
Inductive step : State -> State -> Prop :=
| step_new st p ev :
    heap (world st) !! p = None ->
    step st (mkState (store st)
               (mkWorld (<[p := ev]> (heap (world st))) (randReader (world st))))
| step_AddEvent st p r hg' w' :
    AddEvent (store st) p (world st) = (r, hg', w') ->
    step st (mkState hg' w').

Inductive reachable : State -> Prop :=
| reach_NewHashgraph privateKey publicKey rand :
    reachable (mkState (NewHashgraph privateKey publicKey) (mkWorld ∅ rand))
| reach_step st st' : reachable st -> step st st' -> reachable st'.

(** The two indexes agree: a key of [Events] leads to an event that is in
    the bucket of its round, and an event in the bucket of a round carries
    that round, carries its own digest as [Hash], and its hash is a key of
    [Events]. *)
Definition indexes_agree (hg : Hashgraph) (w : World) : Prop :=
  (forall (k : string) (p : ptr),
      Events hg !! k = Some p ->
      exists ev, heap w !! p = Some ev /\
                 p ∈ default [] (Rounds hg !! RoundCreated ev)) /\
  (forall (n : Z) (p : ptr),
      p ∈ default [] (Rounds hg !! n) ->
      exists ev, heap w !! p = Some ev /\ RoundCreated ev = n /\
                 Hash ev = hashEvent ev /\ is_Some (Events hg !! Hash ev)).

(** [s] is as long as [r] in bytes, or one byte longer. *)
Definition balanced (r s : Z) : Prop :=
  length (big.Bytes s) = length (big.Bytes r) \/
  length (big.Bytes s) = S (length (big.Bytes r)).

(** What a pass of the input goroutine wrote to the relay, with the error
    [AddEvent] had returned before. *)
Definition sent (r : input_result) : option (server.Message Event * option error) :=
  match r with
  | Sent _ msg addErr _ _ => Some (msg, addErr)
  | _ => None
  end.

(** The frames that carry an event message. *)
Definition is_event (f : frame) : bool :=
  match f with
  | EventFrame _ => true
  | _ => false
  end.

(** The frames of the handshake that go through: an offer that is answered,
    a candidate that is added, a message of another type. *)
Definition goes_through (f : frame) : bool :=
  match f with
  | Offer (inr _) None None => true
  | Candidate None => true
  | OtherFrame => true
  | _ => false
  end.

(* ===================================================================== *)
(** * Sample runs *)
(* ===================================================================== *)

Module sample.

(** The key pair of the node (the P-256 key of RFC 6979, A.2.5). *)
Definition nodeKey : ecdsa.PrivateKey :=
  Eval vm_compute in
    ecdsa.keyOf 0xc9afa9d845ba75166b5c215767b1d6934e50c3db36e89b127b8a622b120f6721.

(** Three draws of the random source. *)
Definition k0 : Z := 0xa6e3c57dd01abe90086538398355dd4c3b17aa873382b0f24d6129493d8aad60.
Definition k1 : Z := 0xa6e3c57dd01abe90086538398355dd4c3b17aa873382b0f24d6129493d8aad61.
Definition k27 : Z := 0xa6e3c57dd01abe90086538398355dd4c3b17aa873382b0f24d6129493d8aad7b.

Definition now : time.Time :=
  time.mkTime "2024-07-01 12:00:00.123456789 +0000 UTC m=+12.345678901".

(** The event [main] builds from the input line [hello]. *)
Definition userEvent : Event :=
  mkEvent [bytes_of_string "hello"] "selfParentHash" "otherParentHash" "userID" now
          "" "" 0 None false 0.

Definition userHash : string :=
  "e003863cc2039d39108d13b6b35fc979f13ce6638936ee6d4582017134e062d4".

(** The same event once hashed, and once hashed and signed with [k0]. *)
Definition hashedEvent : Event := setHash userHash userEvent.

Definition signedEvent : Event :=
  setSignature
    ("efd48b2aacb6a8fd1140dd9cd45e81d69d2c877b56aaf991c34d0ea84eaf3716" ++
     "79f439eac7602c4d4a7638f074778ede424e2d48083c561500d7259285ec5c42")%string
    hashedEvent.

(** The signed event with its one transaction cut in two. *)
Definition resplitEvent : Event :=
  setTransactions [bytes_of_string "hel"; bytes_of_string "lo"] signedEvent.

(** The signed event with another transaction, under the old hash and
    signature. *)
Definition tamperedEvent : Event :=
  setTransactions [bytes_of_string "send 1000 to mallory"] signedEvent.

(** An event with a hash that is not its digest and a signature that is
    not one. *)
Definition forgedEvent : Event :=
  mkEvent [bytes_of_string "send 1000 to mallory"] "" "" "userID" now
          "00" userHash 0 None false 0.

(** A root event of round 5 and a child of round 0 that names it. *)
Definition parentEvent : Event :=
  mkEvent [bytes_of_string "first"] "" "" "userID" now "" "" 5 None true 0.

Definition parentHash : string := Eval vm_compute in hashEvent parentEvent.

Definition childEvent : Event :=
  mkEvent [bytes_of_string "second"] parentHash "" "userID" now "" "" 0 None false 1.

Definition hg0 : Hashgraph := NewHashgraph nodeKey (ecdsa.Public nodeKey).

Definition world_of (events : list (ptr * Event)) (rand : list Z) : World :=
  mkWorld (list_to_map events) rand.

(** The typed event added twice through the same pointer. *)
Definition typed : World := world_of [(1%positive, userEvent)] [k0; k1].
Definition first := AddEvent hg0 1%positive typed.
Definition second := AddEvent first.1.2 1%positive first.2.

(** The forged event added to the empty store. *)
Definition forged : World := world_of [(1%positive, forgedEvent)] [k0].

(** The tampered event arriving off the wire at the empty store. *)
Definition tampered : World := world_of [(1%positive, tamperedEvent)] [k1].
Definition afterTampered :=
  main_case_event (Some 1%positive) (ecdsa.Public nodeKey) hg0 tampered.

(** The parent added, then the child. *)
Definition family : World :=
  world_of [(1%positive, parentEvent); (2%positive, childEvent)] [k0; k1].
Definition withParent := AddEvent hg0 1%positive family.
Definition withChild := AddEvent withParent.1.2 2%positive withParent.2.

(** The hashed event signed under the draw [k27]. *)
Definition unlucky : World := world_of [(1%positive, hashedEvent)] [k27].

Definition forgedRun := AddEvent hg0 1%positive forged.
Definition unluckyRun := signEvent 1%positive nodeKey unlucky.
Definition unluckySign :=
  ecdsa.Sign [k27] nodeKey (sha256.Sum256 (bytes_of_string userHash)).

(** The results of these runs, each evaluated once. *)
Definition firstResult := Eval vm_compute in first.
Definition secondResult := Eval vm_compute in second.
Definition forgedResult := Eval vm_compute in forgedRun.
Definition tamperedResult := Eval vm_compute in afterTampered.
Definition parentResult := Eval vm_compute in withParent.
Definition childResult := Eval vm_compute in withChild.
Definition unluckyResult := Eval vm_compute in unluckyRun.
Definition unluckySignature := Eval vm_compute in unluckySign.

(** The pair [ecdsa.Sign] returns under the draw [k27]. *)
Definition r27 : Z := 0x317d8716f939a57690688a94523533400f8532469c81feb980b040eea71bc56c.
Definition s27 : Z := 0xdbc7293a223566f84ff719d11ac1fc77400a555c49325accf060649397e971.

(** The input goroutine: two nodes on line, the text [hello], a number out
    of range, then the choice of the second node; the random source has
    nothing to give. *)
Definition nodes : list string := ["A"; "B"].
Definition stdin : list string := ["hello"; "9"; "2"; "next"].
Definition typedInput := main_input nodes now stdin hg0 (mkWorld ∅ []).
Definition typedInputResult := Eval vm_compute in typedInput.

(** The pair [ecdsa.Sign] returns for the typed event under the draw [k0]. *)
Definition r0 : Z := 0xefd48b2aacb6a8fd1140dd9cd45e81d69d2c877b56aaf991c34d0ea84eaf3716.
Definition s0 : Z := 0x79f439eac7602c4d4a7638f074778ede424e2d48083c561500d7259285ec5c42.

(** A peer: another node with a key pair of its own, where the same line is
    typed at the same time.  [peerEvent] is the event it sends. *)
Definition peerKey : ecdsa.PrivateKey :=
  Eval vm_compute in
    ecdsa.keyOf 0x519b423d715f8b581f4fa8ee59f4771a5b44c8130b4e3eacca54a56dda72b464.
Definition peerHg : Hashgraph := NewHashgraph peerKey (ecdsa.Public peerKey).
Definition peerInput := main_input nodes now stdin peerHg (mkWorld ∅ [k0]).
Definition peerInputResult := Eval vm_compute in peerInput.

Definition peerEvent : Event :=
  setSignature
    ("efd48b2aacb6a8fd1140dd9cd45e81d69d2c877b56aaf991c34d0ea84eaf3716" ++
     "153e18832afe3f81f7e0cd6783da74c64311cbfaec2530986c5be0378ea67f36")%string
    hashedEvent.

(** The peer's event arriving off the wire at the empty store of the node. *)
Definition fromPeer : World := world_of [(1%positive, peerEvent)] [k1].
Definition afterPeer :=
  main_case_event (Some 1%positive) (ecdsa.Public nodeKey) hg0 fromPeer.

(** The tampered event under its own digest. *)
Definition rehashedEvent : Event := setHash (hashEvent tamperedEvent) tamperedEvent.

(** The reader goroutine: a candidate, the signed event, a message of
    another type. *)
Definition wire : list frame := [Candidate None; EventFrame (Some signedEvent); OtherFrame].
Definition readerRun := main_reader (ecdsa.Public nodeKey) wire hg0 (mkWorld ∅ [k1]).

(** A message for node B arriving at the relay from node A, while the
    server-side store rejects every event. *)
Definition sessions : gmap string server.Conn := {[ "A" := 1%nat; "B" := 2%nat ]}.

Definition msgToB : server.Message Event :=
  server.mkMessage "event" "" "" "" "" (Some forgedEvent) "B".

Definition rejecting (nodeID selfParent otherParent : string)
    (transactions : list (list byte)) (privateKey : ecdsa.PrivateKey) : option error :=
  Some "invalid signature".

Definition writes (conn : server.Conn) (msg : server.Message Event) : option error := None.

(** At the relay: node A writes to B, which is on line, then to C, which is
    not; B connects, sends an offer and a frame that does not parse, and
    goes. *)
Definition msgToC : server.Message Event :=
  server.mkMessage "event" "" "" "" "" (Some forgedEvent) "C".

Definition traffic : list (server.happening Event) :=
  [server.Receives "A" (server.Parsed msgToB); server.Receives "A" (server.Parsed msgToC)].

Definition offer : server.Message Event := server.mkMessage "offer" "v=0" "" "" "" None "A".

Definition visit : list (server.received Event) :=
  [server.Parsed offer; server.ParseFails "unexpected end of JSON input"].

End sample.

(* --------------------------------------------------------------------- *)
(** The library functions are never unfolded by [simpl]. *)

Arguments sha256.Sum256 : simpl never.
Arguments ecdsa.Sign : simpl never.
Arguments ecdsa.Verify : simpl never.
Arguments hex.EncodeToString : simpl never.
Arguments hex.DecodeString : simpl never.
Arguments big.Bytes : simpl never.
Arguments big.SetBytes : simpl never.

(* ===================================================================== *)
(** * The library model against published test vectors *)
(* ===================================================================== *)

(** FIPS 180-4: there are 64 round constants, from [428a2f98] to
    [c67178f2], and the initial hash value runs from [6a09e667] to
    [5be0cd19]. *)
Example sha256_constants :
  length sha256.K = 64%nat /\
  nth 0 sha256.K 0 = 0x428a2f98 /\ nth 63 sha256.K 0 = 0xc67178f2 /\
  length sha256.init = 8%nat /\
  nth 0 sha256.init 0 = 0x6a09e667 /\ nth 7 sha256.init 0 = 0x5be0cd19.
Proof. vm_compute. repeat split; reflexivity. Qed.

(** FIPS 180-4 example digests: the empty message, one block, two blocks. *)
Example sha256_empty :
  hex.EncodeToString (sha256.Sum256 []) =
  "e3b0c44298fc1c149afbf4c8996fb92427ae41e4649b934ca495991b7852b855".
Proof. vm_compute. reflexivity. Qed.

Example sha256_abc :
  hex.EncodeToString (sha256.Sum256 (bytes_of_string "abc")) =
  "ba7816bf8f01cfea414140de5dae2223b00361a396177a9cb410ff61f20015ad".
Proof. vm_compute. reflexivity. Qed.

Example sha256_two_blocks :
  hex.EncodeToString
    (sha256.Sum256
       (bytes_of_string "abcdbcdecdefdefgefghfghighijhijkijkljklmklmnlmnomnopnopq")) =
  "248d6a61d20638b8e5c026930c3e6039a33ce45964ff2167f6ecedd419db06c1".
Proof. vm_compute. reflexivity. Qed.

(** RFC 6979, A.2.5 (P-256, SHA-256, message [sample]): the public key, the
    signature under the nonce [k0], and its verification. *)
Example p256_public_key :
  ecdsa.Public sample.nodeKey =
  ecdsa.mkPublicKey
    0x60fed4ba255a9d31c961eb74c6356d68c049b8923b61fa6ce669622e60f29fb6
    0x7903fe1008b8bc99a41ae9e95628bc64f2f1b20c2d7e9f5177a3c294d4462299.
Proof. vm_compute. reflexivity. Qed.

Example p256_sign_sample :
  ecdsa.Sign [sample.k0] sample.nodeKey (sha256.Sum256 (bytes_of_string "sample")) =
  (inl (0xefd48b2aacb6a8fd1140dd9cd45e81d69d2c877b56aaf991c34d0ea84eaf3716,
        0xf7cb1c942d657c41d436c7a1b6e29f65f3e900dbb9aff4064dc4ab2f843acda8), []).
Proof. vm_compute. reflexivity. Qed.

Example p256_verify_sample :
  ecdsa.Verify (ecdsa.Public sample.nodeKey)
    (sha256.Sum256 (bytes_of_string "sample"))
    0xefd48b2aacb6a8fd1140dd9cd45e81d69d2c877b56aaf991c34d0ea84eaf3716
    0xf7cb1c942d657c41d436c7a1b6e29f65f3e900dbb9aff4064dc4ab2f843acda8 = true.
Proof. vm_compute. reflexivity. Qed.

Example p256_verify_rejects_other_s :
  ecdsa.Verify (ecdsa.Public sample.nodeKey)
    (sha256.Sum256 (bytes_of_string "sample"))
    0xefd48b2aacb6a8fd1140dd9cd45e81d69d2c877b56aaf991c34d0ea84eaf3716
    0xf7cb1c942d657c41d436c7a1b6e29f65f3e900dbb9aff4064dc4ab2f843acda7 = false.
Proof. vm_compute. reflexivity. Qed.

(* ===================================================================== *)
(** * encoding/hex: decoding inverts encoding *)
(* ===================================================================== *)

Lemma EncodeToString_cons (b : byte) (rest : list byte) :
  hex.EncodeToString (b :: rest) =
  String (hex.digit (Z.shiftr (Z_of_byte b) 4))
    (String (hex.digit (Z.land (Z_of_byte b) 15)) (hex.EncodeToString rest)).
Proof. reflexivity. Qed.

Lemma DecodeString_pair (c1 c2 : ascii) (rest : string) :
  hex.DecodeString (String c1 (String c2 rest)) =
  match hex.fromHexChar c1, hex.fromHexChar c2 with
  | Some a, Some b =>
      match hex.DecodeString rest with
      | Some bs => Some (byte_of_Z (Z.lor (Z.shiftl a 4) b) :: bs)
      | None => None
      end
  | _, _ => None
  end.
Proof. reflexivity. Qed.

(** One byte through its two digits and back. *)
Lemma hex_byte_roundtrip (b : byte) :
  hex.fromHexChar (hex.digit (Z.shiftr (Z_of_byte b) 4)) = Some (Z.shiftr (Z_of_byte b) 4) /\
  hex.fromHexChar (hex.digit (Z.land (Z_of_byte b) 15)) = Some (Z.land (Z_of_byte b) 15) /\
  byte_of_Z (Z.lor (Z.shiftl (Z.shiftr (Z_of_byte b) 4) 4) (Z.land (Z_of_byte b) 15)) = b.
Proof. destruct b; vm_compute; repeat split; reflexivity. Qed.

Lemma hex_Decode_Encode (bs : list byte) :
  hex.DecodeString (hex.EncodeToString bs) = Some bs.
Proof.
  induction bs as [|b bs IH]; [reflexivity|].
  rewrite EncodeToString_cons, DecodeString_pair.
  destruct (hex_byte_roundtrip b) as (-> & -> & ->).
  rewrite IH. reflexivity.
Qed.

Lemma hex_Encode_inj (bs bs' : list byte) :
  hex.EncodeToString bs = hex.EncodeToString bs' -> bs = bs'.
Proof.
  intros E. apply (f_equal hex.DecodeString) in E.
  rewrite !hex_Decode_Encode in E. congruence.
Qed.

(* ===================================================================== *)
(** * hashEvent *)
(* ===================================================================== *)

Lemma fold_Write (txs : list (list byte)) (d : sha256.digest) :
  fold_left (fun hash tx => sha256.Write hash tx) txs d =
  sha256.Digest (sha256.written d ++ concat txs).
Proof.
  revert d. induction txs as [|tx txs IH]; intros d; simpl.
  - rewrite app_nil_r. destruct d; reflexivity.
  - rewrite IH. unfold sha256.Write; simpl. rewrite <- app_assoc. reflexivity.
Qed.

Lemma hashEvent_preimage (e : Event) :
  hashEvent e = hex.EncodeToString (sha256.Sum256 (preimage e)).
Proof.
  unfold hashEvent, preimage. rewrite fold_Write.
  unfold sha256.Sum, sha256.Write, sha256.New; simpl.
  rewrite <- !app_assoc. reflexivity.
Qed.

Lemma hashEvent_setHash (h : string) (e : Event) : hashEvent (setHash h e) = hashEvent e.
Proof. reflexivity. Qed.

Lemma hashEvent_setSignature (s : string) (e : Event) :
  hashEvent (setSignature s e) = hashEvent e.
Proof. reflexivity. Qed.

(* ===================================================================== *)
(** * AddEvent, step by step *)
(* ===================================================================== *)

(** What [signEvent] does to a struct that is there. *)
Lemma signEvent_eq (p : ptr) (key : ecdsa.PrivateKey) (w : World) (ev : Event) :
  heap w !! p = Some ev ->
  signEvent p key w =
  match ecdsa.Sign (randReader w) key (sha256.Sum256 (bytes_of_string (Hash ev))) with
  | (inr err, rest) => (Returns (Some err), mkWorld (heap w) rest)
  | (inl (r, s), rest) =>
      (Returns None,
       mkWorld (<[p := setSignature (hex.EncodeToString (big.Bytes r ++ big.Bytes s)) ev]>
                  (heap w)) rest)
  end.
Proof.
  intros Hp. unfold signEvent. rewrite Hp.
  destruct (ecdsa.Sign _ _ _) as [[[r s]|err] rest]; reflexivity.
Qed.

(** What [AddEvent] does with a struct that is there: the outcome is decided
    by the signing alone. *)
Lemma AddEvent_eq (hg : Hashgraph) (p : ptr) (w : World) (ev : Event) :
  heap w !! p = Some ev ->
  AddEvent hg p w =
  match ecdsa.Sign (randReader w) (privateKey hg)
          (sha256.Sum256 (bytes_of_string (hashEvent ev))) with
  | (inr err, rest) =>
      (Returns (Some err), hg,
       mkWorld (<[p := setHash (hashEvent ev) ev]> (heap w)) rest)
  | (inl (r, s), rest) =>
      (Returns None,
       mkHashgraph
         (<[hashEvent ev := p]> (Events hg))
         (<[RoundCreated ev := default [] (Rounds hg !! RoundCreated ev) ++ [p]]> (Rounds hg))
         (privateKey hg) (publicKey hg),
       mkWorld
         (<[p := setSignature (hex.EncodeToString (big.Bytes r ++ big.Bytes s))
                   (setHash (hashEvent ev) ev)]> (heap w))
         rest)
  end.
Proof.
  intros Hp. unfold AddEvent. rewrite Hp.
  rewrite (signEvent_eq p (privateKey hg) _ (setHash (hashEvent ev) ev))
    by (simpl; apply lookup_insert_eq).
  simpl.
  destruct (ecdsa.Sign _ _ _) as [[[r s]|err] rest]; simpl; [|reflexivity].
  rewrite lookup_insert_eq, insert_insert_eq. reflexivity.
Qed.

(** A nil or dangling pointer makes [AddEvent] panic before it touches the
    store. *)
Lemma AddEvent_nil (hg : Hashgraph) (p : ptr) (w : World) :
  heap w !! p = None -> AddEvent hg p w = (Panics, hg, w).
Proof. intros Hp. unfold AddEvent. rewrite Hp. reflexivity. Qed.

(** [AddEvent] never looks at the [Hash] and [Signature] the caller left in
    the struct: they change neither the outcome nor the store, and after a
    successful call nothing is left of them. *)
Lemma AddEvent_ignores_supplied (hg : Hashgraph) (p : ptr) (w : World)
    (ev : Event) (h s : string) :
  heap w !! p = Some ev ->
  let w2 := mkWorld (<[p := setSignature s (setHash h ev)]> (heap w)) (randReader w) in
  (AddEvent hg p w2).1 = (AddEvent hg p w).1 /\
  ((AddEvent hg p w).1.1 = Returns None -> AddEvent hg p w2 = AddEvent hg p w).
Proof.
  intros Hp w2. subst w2.
  rewrite (AddEvent_eq hg p w ev Hp).
  rewrite (AddEvent_eq hg p _ (setSignature s (setHash h ev)))
    by (simpl; apply lookup_insert_eq).
  simpl. rewrite hashEvent_setSignature, hashEvent_setHash.
  destruct (ecdsa.Sign _ _ _) as [[[r s']|err] rest]; simpl.
  - rewrite insert_insert_eq. split; reflexivity.
  - split; [reflexivity | discriminate].
Qed.

(** The invariant survives a call of [AddEvent], whatever its outcome. *)
Lemma AddEvent_keeps_keys (hg : Hashgraph) (p : ptr) (w : World)
    (r : run (option error)) (hg' : Hashgraph) (w' : World) :
  keys_are_digests hg w ->
  AddEvent hg p w = (r, hg', w') ->
  keys_are_digests hg' w'.
Proof.
  intros Inv Hadd.
  destruct (heap w !! p) as [ev|] eqn:Hp.
  - rewrite (AddEvent_eq hg p w ev Hp) in Hadd.
    destruct (ecdsa.Sign _ _ _) as [[[sr ss]|err] rest];
      injection Hadd as <- <- <-; intros k q Hk; simpl in *.
    + destruct (decide (k = hashEvent ev)) as [->|Hne].
      * rewrite lookup_insert_eq in Hk. injection Hk as <-.
        eexists. rewrite lookup_insert_eq. split; [reflexivity|]. split; reflexivity.
      * rewrite lookup_insert_ne in Hk by congruence.
        destruct (Inv k q Hk) as (ev' & Hq & Hh & Hd).
        destruct (decide (q = p)) as [->|Hqp]; [congruence|].
        exists ev'. rewrite lookup_insert_ne by congruence. auto.
    + destruct (Inv k q Hk) as (ev' & Hq & Hh & Hd).
      destruct (decide (q = p)) as [->|Hqp].
      * assert (ev' = ev) as -> by congruence.
        eexists. rewrite lookup_insert_eq. split; [reflexivity|].
        split; [simpl; congruence | rewrite hashEvent_setHash; assumption].
      * exists ev'. rewrite lookup_insert_ne by congruence. auto.
  - rewrite (AddEvent_nil hg p w Hp) in Hadd. injection Hadd as <- <- <-. exact Inv.
Qed.

(** A new struct at an unused address does not disturb the invariant. *)
Lemma new_event_keeps_keys (hg : Hashgraph) (w : World) (p : ptr) (ev : Event) :
  keys_are_digests hg w ->
  heap w !! p = None ->
  keys_are_digests hg (mkWorld (<[p := ev]> (heap w)) (randReader w)).
Proof.
  intros Inv Hp k q Hk. destruct (Inv k q Hk) as (ev' & Hq & Hh & Hd).
  exists ev'. simpl. rewrite lookup_insert_ne by congruence. auto.
Qed.

Lemma reachable_keys (st : State) :
  reachable st -> keys_are_digests (store st) (world st).
Proof.
  induction 1 as [priv pub rand | st st' _ IH Hstep].
  - intros k p Hk. simpl in Hk. rewrite lookup_empty in Hk. discriminate.
  - destruct Hstep as [st p ev Hp | st p r hg' w' Hadd]; simpl.
    + apply new_event_keeps_keys; assumption.
    + eapply AddEvent_keeps_keys; eassumption.
Qed.

(* ===================================================================== *)
(** * The claims *)
(* ===================================================================== *)

(** The sample runs evaluate to the results recorded for them. *)
Lemma first_result : sample.first = sample.firstResult.
Proof. vm_compute. reflexivity. Qed.

Lemma second_result : sample.second = sample.secondResult.
Proof. vm_compute. reflexivity. Qed.

Lemma forged_result : sample.forgedRun = sample.forgedResult.
Proof. vm_compute. reflexivity. Qed.

Lemma tampered_result : sample.afterTampered = sample.tamperedResult.
Proof. vm_compute. reflexivity. Qed.

Lemma parent_result : sample.withParent = sample.parentResult.
Proof. vm_compute. reflexivity. Qed.

Lemma child_result : sample.withChild = sample.childResult.
Proof. vm_compute. reflexivity. Qed.

Lemma unlucky_result : sample.unluckyRun = sample.unluckyResult.
Proof. vm_compute. reflexivity. Qed.

Lemma unlucky_signature : sample.unluckySign = sample.unluckySignature.
Proof. vm_compute. reflexivity. Qed.

Lemma peer_input_result : sample.peerInput = sample.peerInputResult.
Proof. vm_compute. reflexivity. Qed.

Lemma typed_pair :
  ecdsa.Sign [sample.k0; sample.k1] sample.nodeKey
    (sha256.Sum256 (bytes_of_string sample.userHash)) =
  (inl (sample.r0, sample.s0), [sample.k1]).
Proof. vm_compute. reflexivity. Qed.

Lemma userEvent_hash : hashEvent sample.userEvent = sample.userHash.
Proof. vm_compute. reflexivity. Qed.

(** [verifyEventSignature] reads two fields of the event, no more. *)
Lemma verify_reads_hash_and_signature (e e' : Event) (pk : ecdsa.PublicKey) :
  Hash e' = Hash e -> Signature e' = Signature e ->
  verifyEventSignature e' pk = verifyEventSignature e pk.
Proof. intros Hh Hs. unfold verifyEventSignature. rewrite Hh, Hs. reflexivity. Qed.

(** Every result of the handler is the tuple of its four components. *)
Lemma case_event_components (x : control * Hashgraph * World * list string) :
  x = (x.1.1.1, x.1.1.2, x.1.2, x.2).
Proof. destruct x as [[[c hg] w] l]. reflexivity. Qed.

Lemma AddEvent_components (x : run (option error) * Hashgraph * World) :
  x = (x.1.1, x.1.2, x.2).
Proof. destruct x as [[r hg] w]. reflexivity. Qed.

Lemma AddEvent_outcome (x : run (option error) * Hashgraph * World)
    (r : run (option error)) :
  x.1.1 = r -> x = (r, x.1.2, x.2).
Proof. intros <-. apply AddEvent_components. Qed.

(** C1, as stated, fails.  The code keeps no key of any creator: the
    reader goroutine verifies with the public key of the node it runs on,
    and over the [Hash] string the event carries.  So the event a peer
    built, hashed and signed with its own key, which verifies under that
    key over its digest, is refused and ends the goroutine; and the signed
    event resent with another transaction, whose signature verifies over
    its digest under neither key, is inserted. *)
Lemma received_event_not_checked_against_creator :
  sent sample.peerInput =
    Some (server.mkMessage "event" "" "" "" "" (Some sample.peerEvent) "B", None) /\
  Hash sample.peerEvent = hashEvent sample.peerEvent /\
  verifyEventSignature sample.peerEvent (ecdsa.Public sample.peerKey) = true /\
  sample.afterPeer =
    (Return, sample.hg0, sample.fromPeer,
     ["Receive event"; "Event signature verification failed"]) /\
  hashEvent sample.tamperedEvent <> Hash sample.tamperedEvent /\
  verifyEventSignature sample.rehashedEvent (ecdsa.Public sample.nodeKey) = false /\
  verifyEventSignature sample.rehashedEvent (ecdsa.Public sample.peerKey) = false /\
  verifyEventSignature sample.tamperedEvent (ecdsa.Public sample.peerKey) = false /\
  sample.afterTampered.1.1.1 = NextMessage /\
  Events sample.afterTampered.1.1.2 !! hashEvent sample.tamperedEvent = Some 1%positive /\
  Events sample.hg0 !! hashEvent sample.tamperedEvent = None.
Proof.
  assert (Hne : String.eqb (hashEvent sample.tamperedEvent) (Hash sample.tamperedEvent)
                = false) by (vm_compute; reflexivity).
  rewrite peer_input_result, tampered_result.
  split; [|split; [|split; [|split; [|split; [|split; [|split; [|split; [|split; [|split]]]]]]]]].
  - reflexivity.
  - vm_compute. reflexivity.
  - vm_compute. reflexivity.
  - vm_compute. reflexivity.
  - intros E. rewrite E, String.eqb_refl in Hne. discriminate Hne.
  - vm_compute. reflexivity.
  - vm_compute. reflexivity.
  - vm_compute. reflexivity.
  - reflexivity.
  - vm_compute. reflexivity.
  - reflexivity.
Qed.

(** C1, amended.  In the reader goroutine an event taken off the wire
    reaches the store only after [verifyEventSignature] has returned true
    for it; the check is made with the node's own public key (the public
    half of the key its store signs with), over the SHA-256 of the [Hash]
    string the event carries, and reads nothing else of the event.  When it
    returns false the goroutine returns and neither the store nor any event
    struct has changed; when it returns true and signing succeeds, the
    event is indexed under the digest of its fields with a new signature. *)
Theorem received_event_checked_with_own_key
    (msgEvent : option ptr) (hg : Hashgraph) (w : World)
    (c : control) (hg' : Hashgraph) (w' : World) (log : list string) :
  main_case_event msgEvent (ecdsa.Public (privateKey hg)) hg w = (c, hg', w', log) ->
  (forall p ev,
      msgEvent = Some p -> heap w !! p = Some ev ->
      verifyEventSignature ev (ecdsa.Public (privateKey hg)) = false ->
      c = Return /\ hg' = hg /\ w' = w) /\
  (c = NextMessage \/ hg' <> hg ->
   exists p ev signature,
     msgEvent = Some p /\ heap w !! p = Some ev /\
     verifyEventSignature ev (ecdsa.Public (privateKey hg)) = true /\
     hex.DecodeString (Signature ev) = Some signature /\
     ecdsa.Verify (ecdsa.Public (privateKey hg))
       (sha256.Sum256 (bytes_of_string (Hash ev)))
       (big.SetBytes (firstn (length signature / 2) signature))
       (big.SetBytes (skipn (length signature / 2) signature)) = true) /\
  (forall ev ev',
      Hash ev' = Hash ev -> Signature ev' = Signature ev ->
      verifyEventSignature ev' (ecdsa.Public (privateKey hg)) =
      verifyEventSignature ev (ecdsa.Public (privateKey hg))) /\
  (forall p ev r s rest,
      msgEvent = Some p -> heap w !! p = Some ev ->
      verifyEventSignature ev (ecdsa.Public (privateKey hg)) = true ->
      ecdsa.Sign (randReader w) (privateKey hg)
        (sha256.Sum256 (bytes_of_string (hashEvent ev))) = (inl (r, s), rest) ->
      c = NextMessage /\
      Events hg' = <[hashEvent ev := p]> (Events hg) /\
      heap w' !! p =
        Some (setSignature (hex.EncodeToString (big.Bytes r ++ big.Bytes s))
                (setHash (hashEvent ev) ev))).
Proof.
  unfold main_case_event. intros Hrun. cbv zeta in Hrun.
  split; [|split; [|split]].
  - intros p ev -> Hp Hv. rewrite Hp, Hv in Hrun. simpl in Hrun.
    injection Hrun as <- <- <- <-. repeat split.
  - intros Hin. destruct msgEvent as [p|].
    2:{ injection Hrun as <- <- <- <-. destruct Hin; [discriminate | congruence]. }
    destruct (heap w !! p) as [ev|] eqn:Hp.
    2:{ injection Hrun as <- <- <- <-. destruct Hin; [discriminate | congruence]. }
    destruct (verifyEventSignature ev _) eqn:Hv; simpl in Hrun.
    + exists p, ev. unfold verifyEventSignature in Hv.
      destruct (hex.DecodeString (Signature ev)) as [signature|] eqn:Hd; [|discriminate].
      exists signature. repeat split; try assumption.
      unfold verifyEventSignature. rewrite Hd. assumption.
    + injection Hrun as <- <- <- <-. destruct Hin; [discriminate | congruence].
  - intros ev ev'. apply verify_reads_hash_and_signature.
  - intros p ev r s rest -> Hp Hv Hsign.
    rewrite Hp, Hv in Hrun. simpl in Hrun.
    rewrite (AddEvent_eq hg p w ev Hp), Hsign in Hrun.
    injection Hrun as <- <- <- <-. simpl. rewrite lookup_insert_eq. repeat split.
Qed.

(** C1 at sample inputs: the peer's event stops the goroutine with the
    store as it was; the tampered event is let in and was verified. *)
Lemma received_event_checked_with_own_key_witness :
  sample.afterPeer.1.1.1 = Return /\ sample.afterPeer.1.1.2 = sample.hg0 /\
  verifyEventSignature sample.tamperedEvent (ecdsa.Public sample.nodeKey) = true.
Proof.
  assert (Hrej : verifyEventSignature sample.peerEvent (ecdsa.Public sample.nodeKey) = false)
    by (vm_compute; reflexivity).
  assert (Hacc : sample.afterTampered.1.1.1 = NextMessage)
    by (rewrite tampered_result; reflexivity).
  split; [|split].
  - destruct (received_event_checked_with_own_key (Some 1%positive) sample.hg0 sample.fromPeer
                sample.afterPeer.1.1.1 sample.afterPeer.1.1.2 sample.afterPeer.1.2 sample.afterPeer.2
                (case_event_components sample.afterPeer)) as (Hout & _).
    destruct (Hout 1%positive sample.peerEvent eq_refl eq_refl Hrej) as (Hc & _). exact Hc.
  - destruct (received_event_checked_with_own_key (Some 1%positive) sample.hg0 sample.fromPeer
                sample.afterPeer.1.1.1 sample.afterPeer.1.1.2 sample.afterPeer.1.2 sample.afterPeer.2
                (case_event_components sample.afterPeer)) as (Hout & _).
    destruct (Hout 1%positive sample.peerEvent eq_refl eq_refl Hrej) as (_ & Hhg & _). exact Hhg.
  - destruct (received_event_checked_with_own_key (Some 1%positive) sample.hg0 sample.tampered
                sample.afterTampered.1.1.1 sample.afterTampered.1.1.2
                sample.afterTampered.1.2 sample.afterTampered.2
                (case_event_components sample.afterTampered)) as (_ & Hin & _).
    destruct (Hin (or_introl Hacc)) as (p & ev & signature & Hm & Hp & Hv & _).
    injection Hm as <-.
    assert (Hev : Some ev = Some sample.tamperedEvent) by (rewrite <- Hp; reflexivity).
    injection Hev as <-. exact Hv.
Defined.

(** C4.  The content hash is the SHA-256 digest, in hex, of the creator, the
    selfParent, the otherParent, the timestamp and the transactions end to
    end, in this order; so two events that agree on these hash alike,
    whatever their other fields. *)
Theorem hashEvent_digest_of_fields (e e' : Event) :
  hashEvent e = hex.EncodeToString (sha256.Sum256 (preimage e)) /\
  (Creator e = Creator e' -> SelfParent e = SelfParent e' ->
   OtherParent e = OtherParent e' -> Timestamp e = Timestamp e' ->
   concat (Transactions e) = concat (Transactions e') ->
   hashEvent e = hashEvent e').
Proof.
  split; [apply hashEvent_preimage|].
  intros Hc Hs Ho Ht Hx.
  rewrite !hashEvent_preimage. unfold preimage.
  rewrite Hc, Hs, Ho, Ht, Hx. reflexivity.
Qed.

(** C4 at sample inputs: the event as typed and the signed event, which
    differ in [Hash] and [Signature] only. *)
Lemma hashEvent_digest_of_fields_witness :
  hashEvent sample.userEvent = hashEvent sample.signedEvent.
Proof.
  apply (hashEvent_digest_of_fields sample.userEvent sample.signedEvent); reflexivity.
Defined.

(** C9.  The keys of [Events] are the [Hash] fields of the events they lead
    to, and the digests of those events: this holds of a new store, is kept
    by [AddEvent], hence holds of every store the program can reach.
    [AddEvent] brings it about by overwriting the [Hash] it was given with
    the digest it computes and the [Signature] with one made with the
    store's own private key, before it indexes the event: whenever
    [ecdsa.Sign] succeeds with the store's key over the digest, [AddEvent]
    returns nil, the struct holds that digest and that signature and the
    digest leads to it; and it returns nil in no other way.  The [Hash] and
    [Signature] it was given play no part. *)
Theorem store_keys_are_digests :
  (forall privateKey publicKey w,
      keys_are_digests (NewHashgraph privateKey publicKey) w) /\
  (forall hg p w r hg' w',
      keys_are_digests hg w -> AddEvent hg p w = (r, hg', w') ->
      keys_are_digests hg' w') /\
  (forall st, reachable st -> keys_are_digests (store st) (world st)) /\
  (forall hg p w ev r s rest,
      heap w !! p = Some ev ->
      ecdsa.Sign (randReader w) (privateKey hg)
        (sha256.Sum256 (bytes_of_string (hashEvent ev))) = (inl (r, s), rest) ->
      exists hg' w',
        AddEvent hg p w = (Returns None, hg', w') /\
        heap w' !! p =
          Some (setSignature (hex.EncodeToString (big.Bytes r ++ big.Bytes s))
                  (setHash (hashEvent ev) ev)) /\
        Events hg' = <[hashEvent ev := p]> (Events hg)) /\
  (forall hg p w ev hg' w',
      heap w !! p = Some ev -> AddEvent hg p w = (Returns None, hg', w') ->
      exists r s rest,
        ecdsa.Sign (randReader w) (privateKey hg)
          (sha256.Sum256 (bytes_of_string (hashEvent ev))) = (inl (r, s), rest) /\
        heap w' !! p =
          Some (setSignature (hex.EncodeToString (big.Bytes r ++ big.Bytes s))
                  (setHash (hashEvent ev) ev)) /\
        Events hg' = <[hashEvent ev := p]> (Events hg)) /\
  (forall hg p w ev h s,
      heap w !! p = Some ev ->
      let w2 := mkWorld (<[p := setSignature s (setHash h ev)]> (heap w)) (randReader w) in
      (AddEvent hg p w2).1 = (AddEvent hg p w).1 /\
      ((AddEvent hg p w).1.1 = Returns None -> AddEvent hg p w2 = AddEvent hg p w)).
Proof.
  split; [|split; [|split; [|split; [|split]]]].
  - intros priv pub w k p Hk. simpl in Hk. rewrite lookup_empty in Hk. discriminate.
  - intros hg p w r hg' w'. apply AddEvent_keeps_keys.
  - apply reachable_keys.
  - intros hg p w ev r s rest Hp Hsign.
    rewrite (AddEvent_eq hg p w ev Hp), Hsign.
    eexists _, _. split; [reflexivity|]. simpl.
    rewrite lookup_insert_eq. split; reflexivity.
  - intros hg p w ev hg' w' Hp Hadd.
    rewrite (AddEvent_eq hg p w ev Hp) in Hadd.
    destruct (ecdsa.Sign _ _ _) as [[[r s]|err] rest]; [|discriminate].
    injection Hadd as <- <-. exists r, s, rest. simpl.
    rewrite lookup_insert_eq. repeat split.
  - intros hg p w ev h s. apply AddEvent_ignores_supplied.
Qed.

(** C9 at a sample input: the store the node reaches by building the typed
    event and adding it, and what [AddEvent] made of the event. *)
Lemma store_keys_are_digests_witness :
  keys_are_digests sample.first.1.2 sample.first.2 /\
  exists hg' w',
    sample.first = (Returns None, hg', w') /\
    heap w' !! 1%positive = Some sample.signedEvent /\
    Events hg' = <[sample.userHash := 1%positive]> ∅.
Proof.
  destruct store_keys_are_digests as (_ & _ & Hreach & Hgo & _).
  split.
  - apply (Hreach (mkState sample.first.1.2 sample.first.2)).
    apply (reach_step (mkState sample.hg0 sample.typed)).
    + apply (reach_step (mkState sample.hg0 (mkWorld ∅ [sample.k0; sample.k1]))).
      * apply reach_NewHashgraph.
      * apply (step_new (mkState sample.hg0 (mkWorld ∅ [sample.k0; sample.k1]))
                 1%positive sample.userEvent).
        reflexivity.
    + apply (step_AddEvent (mkState sample.hg0 sample.typed) 1%positive sample.first.1.1).
      apply AddEvent_components.
  - destruct (Hgo sample.hg0 1%positive sample.typed sample.userEvent sample.r0 sample.s0
                [sample.k1] eq_refl) as (hg' & w' & Hadd & Hheap & Hev).
    + assert (E1 : randReader sample.typed = [sample.k0; sample.k1]) by reflexivity.
      assert (E2 : privateKey sample.hg0 = sample.nodeKey) by reflexivity.
      rewrite E1, E2, userEvent_hash. exact typed_pair.
    + exists hg', w'. split; [exact Hadd|]. rewrite userEvent_hash in Hheap, Hev.
      split; [|exact Hev].
      etransitivity; [exact Hheap|]. f_equal.
Defined.

(** C2, as stated, fails: an event whose [Hash] is not its digest and whose
    [Signature] does not verify is taken by [AddEvent], which returns nil
    and indexes it.  Nor is a wrong hash caught before [AddEvent]: the
    signed event resent with another transaction under its old hash passes
    the reader goroutine and is indexed. *)
Lemma AddEvent_accepts_forged_event :
  hashEvent sample.forgedEvent <> Hash sample.forgedEvent /\
  verifyEventSignature sample.forgedEvent (ecdsa.Public sample.nodeKey) = false /\
  sample.forgedRun.1.1 = Returns None /\
  Events sample.forgedRun.1.2 !! hashEvent sample.forgedEvent = Some 1%positive /\
  Events sample.hg0 !! hashEvent sample.forgedEvent = None /\
  hashEvent sample.tamperedEvent <> Hash sample.tamperedEvent /\
  sample.afterTampered.1.1.1 = NextMessage /\
  Events sample.afterTampered.1.1.2 !! hashEvent sample.tamperedEvent = Some 1%positive.
Proof.
  assert (Hne : String.eqb (hashEvent sample.forgedEvent) (Hash sample.forgedEvent) = false)
    by (vm_compute; reflexivity).
  assert (Hne' : String.eqb (hashEvent sample.tamperedEvent) (Hash sample.tamperedEvent)
                 = false) by (vm_compute; reflexivity).
  rewrite forged_result, tampered_result.
  split; [|split; [|split; [|split; [|split; [|split; [|split]]]]]].
  - intros E. rewrite E, String.eqb_refl in Hne. discriminate Hne.
  - vm_compute. reflexivity.
  - reflexivity.
  - vm_compute. reflexivity.
  - reflexivity.
  - intros E. rewrite E, String.eqb_refl in Hne'. discriminate Hne'.
  - reflexivity.
  - vm_compute. reflexivity.
Qed.

(** C2, amended.  [AddEvent] recomputes the hash and writes it over the one
    supplied, whether or not they agree, and verifies no signature.  It
    fails only when signing fails, and then the store is as before;
    otherwise the event is indexed under the recomputed hash. *)
Theorem AddEvent_overwrites_hash (hg : Hashgraph) (p : ptr) (w : World) (ev : Event) :
  heap w !! p = Some ev ->
  (exists r s rest hg' w',
      ecdsa.Sign (randReader w) (privateKey hg)
        (sha256.Sum256 (bytes_of_string (hashEvent ev))) = (inl (r, s), rest) /\
      AddEvent hg p w = (Returns None, hg', w') /\
      Events hg' !! hashEvent ev = Some p /\
      Hash <$> heap w' !! p = Some (hashEvent ev)) \/
  (exists err rest w',
      ecdsa.Sign (randReader w) (privateKey hg)
        (sha256.Sum256 (bytes_of_string (hashEvent ev))) = (inr err, rest) /\
      AddEvent hg p w = (Returns (Some err), hg, w')).
Proof.
  intros Hp. rewrite (AddEvent_eq hg p w ev Hp).
  destruct (ecdsa.Sign _ _ _) as [[[r s]|err] rest].
  - left. do 5 eexists. split; [reflexivity|]. split; [reflexivity|]. simpl.
    rewrite !lookup_insert_eq. split; reflexivity.
  - right. do 3 eexists. split; reflexivity.
Qed.

Lemma AddEvent_overwrites_hash_witness :
  exists hg' w',
    AddEvent sample.hg0 1%positive sample.forged = (Returns None, hg', w') /\
    Events hg' !! hashEvent sample.forgedEvent = Some 1%positive.
Proof.
  assert (Hok : sample.forgedRun.1.1 = Returns None)
    by (rewrite forged_result; reflexivity).
  destruct (AddEvent_overwrites_hash sample.hg0 1%positive sample.forged sample.forgedEvent)
    as [(r & s & rest & hg' & w' & _ & Hadd & Hev & _) | (err & rest & w' & _ & Hadd)].
  - reflexivity.
  - exists hg', w'. split; assumption.
  - unfold sample.forgedRun in Hok. rewrite Hadd in Hok. discriminate Hok.
Defined.

(** C3, as stated, fails: the second [AddEvent] of an event whose hash the
    store holds returns nil like the first and leaves another store, with
    the event twice in its round. *)
Lemma second_AddEvent_changes_store :
  Events sample.first.1.2 !! hashEvent sample.userEvent = Some 1%positive /\
  sample.second.1.1 = Returns None /\
  Rounds sample.first.1.2 !! 0 = Some [1%positive] /\
  Rounds sample.second.1.2 !! 0 = Some [1%positive; 1%positive] /\
  sample.second.1.2 <> sample.first.1.2.
Proof.
  assert (H1 : Rounds sample.first.1.2 !! 0 = Some [1%positive])
    by (rewrite first_result; reflexivity).
  assert (H2 : Rounds sample.second.1.2 !! 0 = Some [1%positive; 1%positive])
    by (rewrite second_result; reflexivity).
  split; [|split; [|split; [|split]]]; try assumption.
  - rewrite first_result. vm_compute. reflexivity.
  - rewrite second_result. reflexivity.
  - intros E. rewrite E, H1 in H2. discriminate H2.
Qed.

(** C3, amended.  [AddEvent] does not recognise an event whose hash the
    store already holds.  When [ecdsa.Sign] fails it returns that error and
    the store is as before.  Otherwise it returns nil as for a new event:
    it signs the event again (the struct gets the signature made of the
    pair [ecdsa.Sign] returned), keeps the keys of [Events], makes the key
    lead to the struct it was given (so [Events] is as before when that is
    the struct already there) and appends the event once more to its round;
    the store after the second insert is never the store after the first. *)
Theorem AddEvent_of_known_hash (hg : Hashgraph) (p q : ptr) (w : World) (ev : Event) :
  heap w !! q = Some ev ->
  Events hg !! hashEvent ev = Some p ->
  (exists r s rest hg2 w2,
      ecdsa.Sign (randReader w) (privateKey hg)
        (sha256.Sum256 (bytes_of_string (hashEvent ev))) = (inl (r, s), rest) /\
      AddEvent hg q w = (Returns None, hg2, w2) /\
      heap w2 =
        <[q := setSignature (hex.EncodeToString (big.Bytes r ++ big.Bytes s))
                 (setHash (hashEvent ev) ev)]> (heap w) /\
      randReader w2 = rest /\
      dom (Events hg2) = dom (Events hg) /\
      Events hg2 = <[hashEvent ev := q]> (Events hg) /\
      (q = p -> Events hg2 = Events hg) /\
      Rounds hg2 =
        <[RoundCreated ev := default [] (Rounds hg !! RoundCreated ev) ++ [q]]> (Rounds hg) /\
      hg2 <> hg) \/
  (exists err rest,
      ecdsa.Sign (randReader w) (privateKey hg)
        (sha256.Sum256 (bytes_of_string (hashEvent ev))) = (inr err, rest) /\
      AddEvent hg q w =
        (Returns (Some err), hg,
         mkWorld (<[q := setHash (hashEvent ev) ev]> (heap w)) rest)).
Proof.
  intros Hq Hknown.
  rewrite (AddEvent_eq hg q w ev Hq).
  destruct (ecdsa.Sign _ _ _) as [[[r s]|err] rest].
  - left. exists r, s, rest. eexists _, _. split; [reflexivity|]. split; [reflexivity|].
    simpl. split; [reflexivity|]. split; [reflexivity|].
    split; [|split; [reflexivity|split; [|split; [reflexivity|]]]].
    + rewrite dom_insert_L.
      assert (Hin : hashEvent ev ∈ dom (Events hg)) by (apply elem_of_dom; eauto).
      apply subseteq_union_1_L, singleton_subseteq_l, Hin.
    + intros ->. apply insert_id. exact Hknown.
    + intros E.
      apply (f_equal (fun x => length <$> Rounds x !! RoundCreated ev)) in E.
      simpl in E. rewrite lookup_insert_eq in E. simpl in E. rewrite length_app in E.
      destruct (Rounds hg !! RoundCreated ev) as [l|]; simpl in E;
        [injection E as E; lia | discriminate E].
  - right. exists err, rest. split; reflexivity.
Qed.

Lemma AddEvent_of_known_hash_witness :
  Events sample.second.1.2 = Events sample.first.1.2 /\
  sample.second.1.2 <> sample.first.1.2.
Proof.
  assert (Hb : sample.second.1.1 = Returns None)
    by (rewrite second_result; reflexivity).
  destruct (AddEvent_of_known_hash sample.first.1.2 1%positive 1%positive sample.first.2
              sample.signedEvent)
    as [(r & s & rest & hg2 & w2 & _ & Hadd & _ & _ & _ & _ & He & _ & Hne)
       | (err & rest & _ & Hadd)].
  - rewrite first_result. reflexivity.
  - rewrite first_result. vm_compute. reflexivity.
  - unfold sample.second. rewrite Hadd. simpl. split; [apply He; reflexivity | exact Hne].
  - unfold sample.second in Hb. rewrite Hadd in Hb. discriminate Hb.
Defined.

(* --------------------------------------------------------------------- *)
(** ** Signing and verifying *)

(** What [verifyEventSignature] hands to [ecdsa.Verify] after [signEvent]
    has written [r] and [s]: the two halves of their joint encoding. *)
Lemma verify_of_signed (ev : Event) (pk : ecdsa.PublicKey) (r s : Z) :
  let signature := big.Bytes r ++ big.Bytes s in
  verifyEventSignature (setSignature (hex.EncodeToString signature) ev) pk =
  ecdsa.Verify pk (sha256.Sum256 (bytes_of_string (Hash ev)))
    (big.SetBytes (firstn (length signature / 2) signature))
    (big.SetBytes (skipn (length signature / 2) signature)).
Proof.
  intros signature. unfold verifyEventSignature. simpl.
  rewrite hex_Decode_Encode. reflexivity.
Qed.

(** The halves are the encodings of [r] and of [s] when [s] is as long as
    [r], or one byte longer. *)
Lemma verify_of_balanced (ev : Event) (pk : ecdsa.PublicKey) (r s : Z) :
  length (big.Bytes s) = length (big.Bytes r) \/
  length (big.Bytes s) = S (length (big.Bytes r)) ->
  verifyEventSignature
    (setSignature (hex.EncodeToString (big.Bytes r ++ big.Bytes s)) ev) pk =
  ecdsa.Verify pk (sha256.Sum256 (bytes_of_string (Hash ev)))
    (big.SetBytes (big.Bytes r)) (big.SetBytes (big.Bytes s)).
Proof.
  intros Hlen. rewrite verify_of_signed. cbv zeta.
  assert (Hhalf : (length (big.Bytes r ++ big.Bytes s) / 2)%nat = length (big.Bytes r)).
  { rewrite length_app.
    destruct Hlen as [-> | ->]; symmetry.
    - apply (Nat.div_unique _ 2 _ 0); lia.
    - apply (Nat.div_unique _ 2 _ 1); lia. }
  rewrite Hhalf, take_app_length, drop_app_length. reflexivity.
Qed.

(** The signed sample event verifies under the node's key. *)
Lemma signedEvent_verifies :
  verifyEventSignature sample.signedEvent (ecdsa.Public sample.nodeKey) = true.
Proof. vm_compute. reflexivity. Qed.

(** C5, as stated, fails.  Cutting the one transaction of the signed event
    in two changes its transaction list and leaves the recomputed hash as it
    was; replacing the transaction changes the recomputed hash; either way
    the mutated event, which carries the old hash and signature, verifies. *)
Lemma mutated_event_still_verifies :
  Transactions sample.resplitEvent <> Transactions sample.signedEvent /\
  hashEvent sample.resplitEvent = hashEvent sample.signedEvent /\
  verifyEventSignature sample.resplitEvent (ecdsa.Public sample.nodeKey) = true /\
  Transactions sample.tamperedEvent <> Transactions sample.signedEvent /\
  hashEvent sample.tamperedEvent <> hashEvent sample.signedEvent /\
  verifyEventSignature sample.tamperedEvent (ecdsa.Public sample.nodeKey) = true.
Proof.
  assert (Hne : String.eqb (hashEvent sample.tamperedEvent) (hashEvent sample.signedEvent)
                = false) by (vm_compute; reflexivity).
  split; [|split; [|split; [|split; [|split]]]].
  - discriminate.
  - rewrite !hashEvent_preimage. reflexivity.
  - rewrite <- signedEvent_verifies. apply verify_reads_hash_and_signature; reflexivity.
  - discriminate.
  - intros E. rewrite E, String.eqb_refl in Hne. discriminate Hne.
  - rewrite <- signedEvent_verifies. apply verify_reads_hash_and_signature; reflexivity.
Qed.

(** C5, amended.  The recomputed hash is a function of the hashed bytes
    (creator, parents, timestamp, transactions end to end): a mutation
    that leaves them as they are leaves the hash as it is, and after a
    mutation that changes them the hashes differ unless the two byte
    strings collide under SHA-256.  Verification reads the [Hash] and
    [Signature] fields only, so its verdict on the mutated event is its
    verdict on the original unless one of the two was mutated. *)
Theorem hash_and_verification_under_mutation (e e' : Event) :
  (preimage e' = preimage e -> hashEvent e' = hashEvent e) /\
  (hashEvent e' = hashEvent e ->
   preimage e' = preimage e \/
   (preimage e' <> preimage e /\
    sha256.Sum256 (preimage e') = sha256.Sum256 (preimage e))) /\
  (forall pk,
      Hash e' = Hash e -> Signature e' = Signature e ->
      verifyEventSignature e' pk = verifyEventSignature e pk).
Proof.
  split; [|split].
  - intros E. rewrite !hashEvent_preimage, E. reflexivity.
  - intros E. rewrite !hashEvent_preimage in E. apply hex_Encode_inj in E.
    destruct (List.list_eq_dec byte_eq_dec (preimage e') (preimage e)) as [Hsame|Hdiff].
    + left. exact Hsame.
    + right. split; assumption.
  - intros pk. apply verify_reads_hash_and_signature.
Qed.

Lemma hash_and_verification_under_mutation_witness :
  hashEvent sample.resplitEvent = hashEvent sample.signedEvent /\
  verifyEventSignature sample.tamperedEvent (ecdsa.Public sample.nodeKey) =
  verifyEventSignature sample.signedEvent (ecdsa.Public sample.nodeKey).
Proof.
  destruct (hash_and_verification_under_mutation sample.signedEvent sample.resplitEvent)
    as (Hsame & _ & _).
  destruct (hash_and_verification_under_mutation sample.signedEvent sample.tamperedEvent)
    as (_ & _ & Hver).
  split.
  - apply Hsame. reflexivity.
  - apply Hver; reflexivity.
Defined.

(* --------------------------------------------------------------------- *)
(** ** Rounds and parents *)

(** C6, as stated, fails: the store holds a child of round 0 whose
    selfParent, also in the store, has round 5. *)
Lemma child_round_below_parent_round :
  sample.withChild.1.1 = Returns None /\
  Events sample.withChild.1.2 !! sample.parentHash = Some 1%positive /\
  Events sample.withChild.1.2 !! hashEvent sample.childEvent = Some 2%positive /\
  SelfParent <$> heap sample.withChild.2 !! 2%positive = Some sample.parentHash /\
  RoundCreated <$> heap sample.withChild.2 !! 2%positive = Some 0 /\
  RoundCreated <$> heap sample.withChild.2 !! 1%positive = Some 5.
Proof.
  rewrite child_result.
  split; [|split; [|split; [|split; [|split]]]]; vm_compute; reflexivity.
Qed.

(** C6, amended.  [AddEvent] files an event under the round it arrives
    with: the round is neither computed nor compared with the rounds of the
    parents, and no other event's round changes. *)
Theorem AddEvent_keeps_supplied_round (hg : Hashgraph) (p : ptr) (w : World)
    (ev : Event) (hg' : Hashgraph) (w' : World) :
  heap w !! p = Some ev ->
  AddEvent hg p w = (Returns None, hg', w') ->
  RoundCreated <$> heap w' !! p = Some (RoundCreated ev) /\
  Rounds hg' !! RoundCreated ev =
    Some (default [] (Rounds hg !! RoundCreated ev) ++ [p]) /\
  (forall q, q <> p -> heap w' !! q = heap w !! q) /\
  (forall n, n <> RoundCreated ev -> Rounds hg' !! n = Rounds hg !! n).
Proof.
  intros Hp Hadd. rewrite (AddEvent_eq hg p w ev Hp) in Hadd.
  destruct (ecdsa.Sign _ _ _) as [[[r s]|err] rest]; [|discriminate].
  injection Hadd as <- <-. simpl. rewrite !lookup_insert_eq.
  split; [reflexivity|]. split; [reflexivity|]. split.
  - intros q Hq. apply lookup_insert_ne. congruence.
  - intros n Hn. apply lookup_insert_ne. congruence.
Qed.

Lemma AddEvent_keeps_supplied_round_witness :
  Rounds sample.withChild.1.2 !! RoundCreated sample.childEvent =
  Some (default [] (Rounds sample.withParent.1.2 !! RoundCreated sample.childEvent)
          ++ [2%positive]).
Proof.
  assert (Hok : sample.withChild.1.1 = Returns None)
    by (rewrite child_result; reflexivity).
  destruct (AddEvent_keeps_supplied_round sample.withParent.1.2 2%positive
              sample.withParent.2 sample.childEvent sample.withChild.1.2 sample.withChild.2)
    as (_ & Hbucket & _).
  - rewrite parent_result. reflexivity.
  - apply (AddEvent_outcome sample.withChild). exact Hok.
  - exact Hbucket.
Defined.

(** C7, as stated, fails: the event [main] builds names the parents
    [selfParentHash] and [otherParentHash], which no store holds, and
    [AddEvent] returns nil for it and indexes it. *)
Lemma AddEvent_accepts_missing_parents :
  SelfParent sample.userEvent = "selfParentHash" /\
  Events sample.hg0 !! SelfParent sample.userEvent = None /\
  Events sample.hg0 !! OtherParent sample.userEvent = None /\
  sample.first.1.1 = Returns None /\
  Events sample.first.1.2 !! hashEvent sample.userEvent = Some 1%positive /\
  Rounds sample.first.1.2 !! 0 = Some [1%positive].
Proof.
  rewrite first_result.
  split; [|split; [|split; [|split; [|split]]]]; vm_compute; reflexivity.
Qed.

(** C7, amended.  [AddEvent] does not look the parents up: an event with a
    parent reference that is set and names no event of the store is
    inserted like any other, as soon as signing succeeds; there is no
    MissingParent outcome and nothing is set aside for a replay. *)
Theorem AddEvent_does_not_check_parents (hg : Hashgraph) (p : ptr) (w : World)
    (ev : Event) (r s : Z) (rest : list Z) :
  heap w !! p = Some ev ->
  (SelfParent ev <> "" /\ Events hg !! SelfParent ev = None) \/
  (OtherParent ev <> "" /\ Events hg !! OtherParent ev = None) ->
  ecdsa.Sign (randReader w) (privateKey hg)
    (sha256.Sum256 (bytes_of_string (hashEvent ev))) = (inl (r, s), rest) ->
  exists hg' w',
    AddEvent hg p w = (Returns None, hg', w') /\
    Events hg' !! hashEvent ev = Some p /\
    Rounds hg' !! RoundCreated ev =
      Some (default [] (Rounds hg !! RoundCreated ev) ++ [p]) /\
    randReader w' = rest.
Proof.
  intros Hp _ Hsign. rewrite (AddEvent_eq hg p w ev Hp), Hsign.
  do 2 eexists. split; [reflexivity|]. simpl.
  rewrite !lookup_insert_eq. repeat split.
Qed.

Lemma AddEvent_does_not_check_parents_witness :
  exists hg' w',
    AddEvent sample.hg0 1%positive sample.typed = (Returns None, hg', w') /\
    Events hg' !! hashEvent sample.userEvent = Some 1%positive /\
    Rounds hg' !! 0 = Some ([] ++ [1%positive]) /\
    randReader w' = [sample.k1].
Proof.
  eapply (AddEvent_does_not_check_parents sample.hg0 1%positive sample.typed sample.userEvent).
  - reflexivity.
  - left. split; [discriminate | reflexivity].
  - vm_compute. reflexivity.
Defined.

(* --------------------------------------------------------------------- *)
(** ** The relay *)

(** C8, as stated, fails: the server-side store rejects the event, and the
    relay still writes the message to the connection of node B. *)
Lemma relay_forwards_rejected_event :
  sample.rejecting "A" "" "" [] (ecdsa.mkPrivateKey (ecdsa.mkPublicKey 0 0) 0) =
    Some "invalid signature"%string /\
  server.signalHandler_case_event sample.rejecting sample.writes sample.sessions
    "A" sample.msgToB =
  [server.Log "Received event";
   server.Log "Failed to add event to Hashgraph: invalid signature";
   server.WriteJSON 2%nat sample.msgToB] /\
  server.forwarded
    (server.signalHandler_case_event sample.rejecting sample.writes sample.sessions
       "A" sample.msgToB) = [2%nat].
Proof. split; [|split]; vm_compute; reflexivity. Qed.

(** C8, amended.  Whether the server-side [AddEvent] rejects the event or
    not, the relay writes the message to the target node's connection and
    to no other, exactly when the target is not the sender and has a
    session; a rejection is logged, with its error, and changes nothing
    else. *)
Theorem relay_forwards_whatever_AddEvent_says {E : Type}
    (addEvent : string -> string -> string -> list (list byte) -> ecdsa.PrivateKey ->
                option error)
    (writeJSON : server.Conn -> server.Message E -> option error)
    (sessions : gmap string server.Conn) (nodeID : string) (msg : server.Message E) :
  server.forwarded (server.signalHandler_case_event addEvent writeJSON sessions nodeID msg) =
  (if String.eqb (server.TargetNode msg) nodeID then []
   else match sessions !! server.TargetNode msg with
        | Some targetConn => [targetConn]
        | None => []
        end) /\
  (forall e,
      addEvent nodeID (server.SelfParent msg) (server.OtherParent msg) []
        (ecdsa.mkPrivateKey (ecdsa.mkPublicKey 0 0) 0) = Some e ->
      In (server.Log ("Failed to add event to Hashgraph: " ++ e)%string)
         (server.signalHandler_case_event addEvent writeJSON sessions nodeID msg)).
Proof.
  unfold server.signalHandler_case_event. cbv zeta.
  assert (Hlog : forall o : option error,
             server.forwarded
               (match o with
                | Some e => [server.Log ("Failed to add event to Hashgraph: " ++ e)%string]
                | None => []
                end : list (server.effect E)) = [])
    by (intros [e|]; reflexivity).
  assert (Happ : forall a b : list (server.effect E),
             server.forwarded (a ++ b) = server.forwarded a ++ server.forwarded b)
    by (intros a b; unfold server.forwarded; apply flat_map_app).
  split.
  - destruct (String.eqb (server.TargetNode msg) nodeID).
    + rewrite !Happ, Hlog. reflexivity.
    + destruct (sessions !! server.TargetNode msg) as [targetConn|].
      * rewrite !Happ, Hlog. simpl. destruct (writeJSON targetConn msg); reflexivity.
      * rewrite !Happ, Hlog. reflexivity.
  - intros e ->.
    destruct (String.eqb (server.TargetNode msg) nodeID);
      [|destruct (sessions !! server.TargetNode msg) as [targetConn|]];
      simpl; right; left; reflexivity.
Qed.

(* --------------------------------------------------------------------- *)
(** ** Sign, then verify *)

(** C10 fails on the code at the draw [k27]: [signEvent] returns nil, the
    pair [(r, s)] it got from [ecdsa.Sign] is a valid signature, but [r]
    takes 32 bytes and [s] 31, the 63 bytes are cut after the 31st, and
    [verifyEventSignature] returns false for the event just signed with the
    node's own key. *)
Theorem signEvent_then_verify_fails :
  sample.unluckyRun.1 = Returns None /\
  (exists r s,
      sample.unluckySign = (inl (r, s), []) /\
      ecdsa.Verify (ecdsa.Public sample.nodeKey)
        (sha256.Sum256 (bytes_of_string (Hash sample.hashedEvent))) r s = true /\
      length (big.Bytes r) = 32%nat /\ length (big.Bytes s) = 31%nat) /\
  (exists ev,
      heap sample.unluckyRun.2 !! 1%positive = Some ev /\
      Hash ev = hashEvent sample.userEvent /\
      verifyEventSignature ev (ecdsa.Public sample.nodeKey) = false).
Proof.
  rewrite unlucky_result, unlucky_signature.
  split; [reflexivity|]. split.
  - eexists _, _. split; [reflexivity|].
    split; [|split]; vm_compute; reflexivity.
  - eexists. split; [reflexivity|].
    split; vm_compute; reflexivity.
Qed.

(* ===================================================================== *)
(** * More of the code: encodings, the store's indexes, the goroutines of
      the client, the relay's loop and registry *)
(* ===================================================================== *)

(* --------------------------------------------------------------------- *)
(** ** Big-endian bytes and math/big *)

Lemma Z_of_byte_range (b : byte) : 0 <= Z_of_byte b < 256.
Proof.
  unfold Z_of_byte. pose proof (Byte.to_N_bounded b). lia.
Qed.

Lemma Z_of_byte_of_Z (z : Z) : Z_of_byte (byte_of_Z z) = z mod 256.
Proof.
  unfold byte_of_Z, Z_of_byte.
  change 255 with (Z.ones 8). rewrite Z.land_ones by lia.
  change (2 ^ 8) with 256.
  pose proof (Z.mod_pos_bound z 256 ltac:(lia)) as Hb.
  destruct (Byte.of_N (Z.to_N (z mod 256))) as [b|] eqn:E.
  - apply Byte.to_of_N in E. rewrite E. lia.
  - apply Byte.of_N_None_iff in E. lia.
Qed.

Lemma lor_shiftl_byte (a b : Z) : 0 <= b < 256 -> Z.lor (Z.shiftl a 8) b = a * 256 + b.
Proof.
  intros Hb. rewrite Z.shiftl_mul_pow2 by lia. change (2 ^ 8) with 256.
  symmetry. apply Z.add_nocarry_lor.
  apply Z.bits_inj'. intros n Hn. rewrite Z.land_spec, Z.bits_0.
  destruct (Z.lt_ge_cases n 8) as [Hlt|Hge].
  - change 256 with (2 ^ 8). rewrite Z.mul_pow2_bits_low by lia. reflexivity.
  - assert (Z.testbit b n = false) as ->; [|apply andb_false_r].
    destruct (Z.eq_dec b 0) as [->|Hnz]; [apply Z.bits_0|].
    apply Z.bits_above_log2; [lia|].
    assert (Z.log2 b < 8) by (apply Z.log2_lt_pow2; lia). lia.
Qed.

Lemma be_decode_snoc (l : list byte) (b : byte) :
  be_decode (l ++ [b]) = be_decode l * 256 + Z_of_byte b.
Proof.
  unfold be_decode. rewrite fold_left_app. simpl.
  apply lor_shiftl_byte, Z_of_byte_range.
Qed.

Lemma be_decode_range (l : list byte) : 0 <= be_decode l < 2 ^ (8 * Z.of_nat (length l)).
Proof.
  induction l as [|b l IH] using rev_ind.
  - simpl. unfold be_decode. simpl. lia.
  - rewrite be_decode_snoc, length_app. simpl length.
    replace (8 * Z.of_nat (length l + 1)) with (8 * Z.of_nat (length l) + 8) by lia.
    rewrite Z.pow_add_r by lia. change (2 ^ 8) with 256.
    pose proof (Z_of_byte_range b). nia.
Qed.

Lemma be_decode_app (l1 l2 : list byte) :
  be_decode (l1 ++ l2) = be_decode l1 * 2 ^ (8 * Z.of_nat (length l2)) + be_decode l2.
Proof.
  induction l2 as [|b l2 IH] using rev_ind.
  - rewrite app_nil_r. simpl. unfold be_decode at 3. simpl. lia.
  - rewrite app_assoc, !be_decode_snoc, IH, length_app. simpl length.
    replace (8 * Z.of_nat (length l2 + 1)) with (8 * Z.of_nat (length l2) + 8) by lia.
    rewrite Z.pow_add_r by lia. change (2 ^ 8) with 256. ring.
Qed.

Lemma be_fixed_length (n : nat) (x : Z) (acc : list byte) :
  length (be_fixed n x acc) = (n + length acc)%nat.
Proof.
  revert x acc. induction n as [|n IH]; intros x acc; simpl; [reflexivity|].
  rewrite IH. simpl. lia.
Qed.

Lemma be_decode_fixed (n : nat) (x : Z) (acc : list byte) :
  be_decode (be_fixed n x acc) =
  (x mod 2 ^ (8 * Z.of_nat n)) * 2 ^ (8 * Z.of_nat (length acc)) + be_decode acc.
Proof.
  revert x acc. induction n as [|n IH]; intros x acc.
  - simpl. rewrite Z.mod_1_r. lia.
  - simpl be_fixed. rewrite IH.
    change (byte_of_Z x :: acc) with ([byte_of_Z x] ++ acc).
    rewrite be_decode_app, length_app. simpl length.
    assert (be_decode [byte_of_Z x] = x mod 256) as ->.
    { unfold be_decode. simpl. rewrite Z_of_byte_of_Z. reflexivity. }
    rewrite Z.shiftr_div_pow2 by lia. change (2 ^ 8) with 256.
    replace (8 * Z.of_nat (S n)) with (8 + 8 * Z.of_nat n) by lia.
    replace (8 * Z.of_nat (1 + length acc)) with (8 + 8 * Z.of_nat (length acc)) by lia.
    rewrite !Z.pow_add_r by lia. change (2 ^ 8) with 256.
    rewrite (Z.rem_mul_r x 256 (2 ^ (8 * Z.of_nat n))) by lia.
    ring.
Qed.

Lemma Bytes_length (x : Z) : length (big.Bytes x) = big.byteLen x.
Proof. unfold big.Bytes. rewrite be_fixed_length. simpl. lia. Qed.

Lemma byteLen_bound (x : Z) : Z.abs x < 2 ^ (8 * Z.of_nat (big.byteLen x)).
Proof.
  unfold big.byteLen. destruct (Z.abs x =? 0) eqn:E.
  - apply Z.eqb_eq in E. rewrite E. simpl. lia.
  - apply Z.eqb_neq in E. assert (0 < Z.abs x) by lia.
    apply Z.log2_lt_pow2; [lia|].
    pose proof (Z.log2_nonneg (Z.abs x)).
    rewrite Z2Nat.id by (pose proof (Z.div_pos (Z.log2 (Z.abs x)) 8); lia).
    pose proof (Z.mod_pos_bound (Z.log2 (Z.abs x)) 8 ltac:(lia)).
    pose proof (Z.div_mod (Z.log2 (Z.abs x)) 8 ltac:(lia)). lia.
Qed.

Lemma SetBytes_Bytes (x : Z) : big.SetBytes (big.Bytes x) = Z.abs x.
Proof.
  unfold big.SetBytes, big.Bytes. rewrite be_decode_fixed. simpl length.
  unfold be_decode at 1. simpl. rewrite Z.mul_1_r, Z.add_0_r.
  apply Z.mod_small. pose proof (byteLen_bound x). lia.
Qed.

Lemma half_balanced (lr ls : nat) :
  ls = lr \/ ls = S lr -> ((lr + ls) / 2)%nat = lr.
Proof.
  intros [-> | ->]; symmetry.
  - apply (Nat.div_unique _ 2 _ 0); lia.
  - apply (Nat.div_unique _ 2 _ 1); lia.
Qed.

Lemma half_bounds (n : nat) : (2 * (n / 2) <= n < 2 * (n / 2) + 2)%nat.
Proof.
  pose proof (Nat.div_mod_eq n 2). pose proof (Nat.mod_upper_bound n 2). lia.
Qed.

(** The numbers read back from the two halves of [r.Bytes() ++ s.Bytes()]. *)
Lemma split_signature (r s : Z) :
  0 < r -> 0 < s ->
  let signature := big.Bytes r ++ big.Bytes s in
  let half := (length signature / 2)%nat in
  (length (big.Bytes s) = length (big.Bytes r) \/
   length (big.Bytes s) = S (length (big.Bytes r)) ->
   big.SetBytes (firstn half signature) = r /\ big.SetBytes (skipn half signature) = s) /\
  (~ (length (big.Bytes s) = length (big.Bytes r) \/
      length (big.Bytes s) = S (length (big.Bytes r))) ->
   big.SetBytes (firstn half signature) <> r).
Proof.
  intros Hr Hs signature half. subst signature half.
  rewrite length_app.
  set (lr := length (big.Bytes r)). set (ls := length (big.Bytes s)).
  pose proof (half_bounds (lr + ls)) as Hh.
  split.
  - intros Hbal. rewrite (half_balanced lr ls Hbal).
    subst lr. rewrite take_app_length, drop_app_length, !SetBytes_Bytes. lia.
  - intros Hnot. unfold big.SetBytes.
    assert (Hdec : be_decode (big.Bytes r) = r)
      by (change (big.SetBytes (big.Bytes r) = r); rewrite SetBytes_Bytes; lia).
    destruct (Nat.lt_ge_cases ls lr) as [Hlt|Hge].
    + (* the cut falls inside r *)
      rewrite take_app_le by (fold lr; lia).
      rewrite <- (take_drop ((lr + ls) / 2) (big.Bytes r)) in Hdec at 1.
      rewrite be_decode_app in Hdec.
      pose proof (be_decode_range (drop ((lr + ls) / 2) (big.Bytes r))) as Hd.
      pose proof (be_decode_range (take ((lr + ls) / 2) (big.Bytes r))) as Ht.
      rewrite length_drop in Hdec. fold lr in Hdec.
      intros E. rewrite E in Hdec.
      assert (Hp : 256 <= 2 ^ (8 * Z.of_nat (lr - (lr + ls) / 2))).
      { change 256 with (2 ^ 8). apply Z.pow_le_mono_r; lia. }
      nia.
    + (* the cut falls inside s, past its first byte *)
      assert (Hgt : (lr + 2 <= ls)%nat) by lia.
      rewrite take_app_ge by (fold lr; lia). fold lr.
      rewrite be_decode_app, Hdec.
      pose proof (be_decode_range (take ((lr + ls) / 2 - lr) (big.Bytes s))) as Ht.
      rewrite length_take in *. fold ls in Ht |- *.
      assert (Hp : 256 <= 2 ^ (8 * Z.of_nat (((lr + ls) / 2 - lr) `min` ls))).
      { change 256 with (2 ^ 8). apply Z.pow_le_mono_r; lia. }
      nia.
Qed.

Lemma N_pos : 0 < elliptic.N.
Proof. reflexivity. Qed.

Lemma Sign_range (rand : list Z) (priv : ecdsa.PrivateKey) (hash : list byte)
    (r s : Z) (rest : list Z) :
  ecdsa.Sign rand priv hash = (inl (r, s), rest) ->
  0 < r < elliptic.N /\ 0 < s < elliptic.N.
Proof.
  unfold ecdsa.Sign.
  destruct (negb ((0 <? ecdsa.D priv) && (ecdsa.D priv <? elliptic.N))); [discriminate|].
  destruct (ecdsa.randomScalar rand) as [[k|] rest']; [|discriminate].
  set (r0 := _ mod elliptic.N).
  destruct (r0 =? 0) eqn:Er; [discriminate|].
  set (s0 := BigZ.to_Z _).
  destruct (s0 =? 0) eqn:Es; [discriminate|].
  intros [= <- <- <-].
  apply Z.eqb_neq in Er, Es.
  pose proof (Z.mod_pos_bound (elliptic.affineX (elliptic.ScalarBaseMult k)) elliptic.N N_pos).
  assert (0 <= s0 < elliptic.N).
  { subst s0. unfold elliptic.redN. rewrite BigZ.spec_modulo, BigZ.spec_of_Z.
    apply Z.mod_pos_bound, N_pos. }
  fold r0 in H. lia.
Qed.

Lemma block_length (hh m : list Z) : length hh = 8%nat -> length (sha256.block hh m) = 8%nat.
Proof.
  intros H. unfold sha256.block. rewrite length_map, length_combine, H. reflexivity.
Qed.

Lemma blocks_length (n : nat) (hh ws : list Z) :
  length hh = 8%nat -> length (sha256.blocks n hh ws) = 8%nat.
Proof.
  revert hh ws. induction n as [|n IH]; intros hh ws H; simpl; [exact H|].
  destruct ws; [exact H|]. apply IH, block_length, H.
Qed.

Lemma Sum256_length (data : list byte) : length (sha256.Sum256 data) = 32%nat.
Proof.
  unfold sha256.Sum256.
  pose proof (blocks_length (length (sha256.words (length (sha256.pad data)) (sha256.pad data)))
                sha256.init (sha256.words (length (sha256.pad data)) (sha256.pad data))
                eq_refl) as H.
  destruct (sha256.blocks _ _ _) as [|a [|b [|c [|d [|e [|f [|g [|i [|]]]]]]]]];
    try discriminate H.
  reflexivity.
Qed.

Lemma EncodeToString_length (bs : list byte) :
  String.length (hex.EncodeToString bs) = (2 * length bs)%nat.
Proof.
  induction bs as [|b bs IH]; [reflexivity|].
  rewrite EncodeToString_cons. simpl. rewrite IH. lia.
Qed.

(* --------------------------------------------------------------------- *)
(** ** More of hex and of the signature check *)

Lemma DecodeString_length (n : nat) (s : string) (bs : list byte) :
  (String.length s <= n)%nat ->
  hex.DecodeString s = Some bs -> String.length s = (2 * length bs)%nat.
Proof.
  revert s bs. induction n as [|n IH]; intros s bs Hn Hd.
  - destruct s; [|simpl in Hn; lia]. injection Hd as <-. reflexivity.
  - destruct s as [|c1 [|c2 rest]].
    + injection Hd as <-. reflexivity.
    + discriminate Hd.
    + rewrite DecodeString_pair in Hd.
      destruct (hex.fromHexChar c1); [|discriminate].
      destruct (hex.fromHexChar c2); [|discriminate].
      destruct (hex.DecodeString rest) as [bs'|] eqn:Hr; [|discriminate].
      injection Hd as <-. simpl in Hn |- *.
      rewrite (IH rest bs') by (lia || exact Hr). lia.
Qed.

Lemma Verify_zero_r (pk : ecdsa.PublicKey) (hash : list byte) (s : Z) :
  ecdsa.Verify pk hash 0 s = false.
Proof. reflexivity. Qed.

Lemma SetBytes_nil : big.SetBytes [] = 0.
Proof. reflexivity. Qed.

Lemma verify_short_signature (ev : Event) (pk : ecdsa.PublicKey) :
  (String.length (Signature ev) < 4)%nat -> verifyEventSignature ev pk = false.
Proof.
  intros Hlen. unfold verifyEventSignature.
  destruct (hex.DecodeString (Signature ev)) as [sig|] eqn:Hd; [|reflexivity].
  apply (DecodeString_length _ _ _ (Nat.le_refl _)) in Hd.
  assert (Hhalf : (length sig / 2)%nat = 0%nat) by (apply Nat.div_small; lia).
  rewrite Hhalf, take_0, SetBytes_nil. apply Verify_zero_r.
Qed.

(** X1.  [signEvent] writes the hex digits of [r.Bytes()] followed by
    [s.Bytes()] into the event, and [verifyEventSignature] then hands
    [ecdsa.Verify] the two halves of these bytes, cut at half their number,
    as [r'] and [s'].  These are the [r] and [s] that [ecdsa.Sign] returned
    when the encoding of [s] is as long as that of [r] or one byte longer,
    and otherwise [r'] is not [r]. *)
Theorem signEvent_then_verify_reads (p : ptr) (key : ecdsa.PrivateKey)
    (pk : ecdsa.PublicKey) (w : World) (ev : Event) (r s : Z) (rest : list Z) :
  heap w !! p = Some ev ->
  ecdsa.Sign (randReader w) key (sha256.Sum256 (bytes_of_string (Hash ev))) =
    (inl (r, s), rest) ->
  let signature := big.Bytes r ++ big.Bytes s in
  let r' := big.SetBytes (firstn (length signature / 2) signature) in
  let s' := big.SetBytes (skipn (length signature / 2) signature) in
  let ev' := setSignature (hex.EncodeToString signature) ev in
  signEvent p key w = (Returns None, mkWorld (<[p := ev']> (heap w)) rest) /\
  verifyEventSignature ev' pk =
    ecdsa.Verify pk (sha256.Sum256 (bytes_of_string (Hash ev))) r' s' /\
  (balanced r s -> r' = r /\ s' = s) /\
  (~ balanced r s -> r' <> r).
Proof.
  intros Hp Hsign signature r' s' ev'.
  destruct (Sign_range _ _ _ _ _ _ Hsign) as [Hr Hs].
  destruct (split_signature r s) as [Hbal Hunbal]; [lia | lia |].
  split.
  - rewrite (signEvent_eq p key w ev Hp), Hsign. reflexivity.
  - split; [apply verify_of_signed|]. split; assumption.
Qed.

(** [hashEvent] returns 64 hex digits, the encoding of 32 bytes. *)
Lemma hashEvent_length (e : Event) :
  String.length (hashEvent e) = 64%nat /\
  exists bs, hex.DecodeString (hashEvent e) = Some bs /\ length bs = 32%nat.
Proof.
  rewrite hashEvent_preimage. split.
  - rewrite EncodeToString_length, Sum256_length. reflexivity.
  - eexists. split; [apply hex_Decode_Encode | apply Sum256_length].
Qed.

(** X2.  Every key of [Events], in every store the program reaches, is a
    string of 64 hex digits: it decodes to the 32 bytes of a digest. *)
Theorem store_keys_are_64_hex_digits (st : State) (k : string) (p : ptr) :
  reachable st ->
  Events (store st) !! k = Some p ->
  String.length k = 64%nat /\
  exists bs, hex.DecodeString k = Some bs /\ length bs = 32%nat.
Proof.
  intros Hreach Hk.
  destruct (reachable_keys st Hreach k p Hk) as (ev & _ & _ & <-).
  apply hashEvent_length.
Qed.

(** X3.  [verifyEventSignature] returns false, whatever the key, for a
    signature of fewer than four characters (so for the empty signature of
    an event that was never signed) and for a signature with an odd number
    of characters. *)
Theorem short_or_odd_signature_never_verifies (ev : Event) (pk : ecdsa.PublicKey) :
  (String.length (Signature ev) < 4)%nat \/
  Nat.odd (String.length (Signature ev)) = true ->
  verifyEventSignature ev pk = false.
Proof.
  intros [Hshort | Hodd]; [apply verify_short_signature, Hshort|].
  unfold verifyEventSignature.
  destruct (hex.DecodeString (Signature ev)) as [sig|] eqn:Hd; [|reflexivity].
  apply (DecodeString_length _ _ _ (Nat.le_refl _)) in Hd.
  rewrite Hd, Nat.odd_mul in Hodd. discriminate Hodd.
Qed.

(* --------------------------------------------------------------------- *)
(** ** What AddEvent keeps *)

(** X4.  [AddEvent] only adds: a key of [Events] stays a key, a round keeps
    its events in their order and grows at the end, the keys of the node
    stay, and when [AddEvent] does not return nil the store is as before. *)
Theorem AddEvent_never_removes (hg : Hashgraph) (p : ptr) (w : World)
    (r : run (option error)) (hg' : Hashgraph) (w' : World) :
  AddEvent hg p w = (r, hg', w') ->
  (forall k, is_Some (Events hg !! k) -> is_Some (Events hg' !! k)) /\
  (forall n l, Rounds hg !! n = Some l -> exists l', Rounds hg' !! n = Some (l ++ l')) /\
  privateKey hg' = privateKey hg /\ publicKey hg' = publicKey hg /\
  (r <> Returns None -> hg' = hg).
Proof.
  intros Hadd.
  destruct (heap w !! p) as [ev|] eqn:Hp.
  2:{ rewrite (AddEvent_nil hg p w Hp) in Hadd. injection Hadd as <- <- <-.
      repeat split; try done. intros n l Hl. exists []. rewrite app_nil_r. exact Hl. }
  rewrite (AddEvent_eq hg p w ev Hp) in Hadd.
  destruct (ecdsa.Sign _ _ _) as [[[sr ss]|err] rest]; injection Hadd as <- <- <-.
  - simpl. split; [|split; [|repeat split; congruence]].
    + intros k Hk. destruct (decide (k = hashEvent ev)) as [->|Hne].
      * rewrite lookup_insert_eq. eauto.
      * rewrite lookup_insert_ne by congruence. exact Hk.
    + intros n l Hl. destruct (decide (n = RoundCreated ev)) as [->|Hne].
      * rewrite lookup_insert_eq, Hl. simpl. eauto.
      * rewrite lookup_insert_ne by congruence. exists []. rewrite app_nil_r. exact Hl.
  - repeat split; try done. intros n l Hl. exists []. rewrite app_nil_r. exact Hl.
Qed.

(** The two indexes agree after a call of [AddEvent] if they did before. *)
Lemma AddEvent_keeps_indexes (hg : Hashgraph) (p : ptr) (w : World)
    (r : run (option error)) (hg' : Hashgraph) (w' : World) :
  indexes_agree hg w ->
  AddEvent hg p w = (r, hg', w') ->
  indexes_agree hg' w'.
Proof.
  intros [Inv1 Inv2] Hadd.
  destruct (heap w !! p) as [ev|] eqn:Hp.
  2:{ rewrite (AddEvent_nil hg p w Hp) in Hadd. injection Hadd as <- <- <-.
      split; assumption. }
  rewrite (AddEvent_eq hg p w ev Hp) in Hadd.
  destruct (ecdsa.Sign _ _ _) as [[[sr ss]|err] rest]; injection Hadd as <- <- <-.
  - split; simpl.
    + intros k q Hk.
      destruct (decide (q = p)) as [->|Hqp].
      * eexists. rewrite lookup_insert_eq. split; [reflexivity|]. simpl.
        rewrite lookup_insert_eq. simpl. apply elem_of_app. right. apply list_elem_of_singleton.
        reflexivity.
      * destruct (decide (k = hashEvent ev)) as [->|Hne].
        { rewrite lookup_insert_eq in Hk. congruence. }
        rewrite lookup_insert_ne in Hk by congruence.
        destruct (Inv1 k q Hk) as (evq & Hq & Hin).
        exists evq. rewrite lookup_insert_ne by congruence. split; [exact Hq|].
        destruct (decide (RoundCreated evq = RoundCreated ev)) as [E|Hn].
        { rewrite E in *. rewrite lookup_insert_eq. simpl. apply elem_of_app. left. exact Hin. }
        rewrite lookup_insert_ne by congruence. exact Hin.
    + intros n q Hin.
      destruct (decide (q = p)) as [->|Hqp].
      * destruct (decide (n = RoundCreated ev)) as [->|Hn].
        { eexists. rewrite lookup_insert_eq. split; [reflexivity|]. simpl.
          rewrite lookup_insert_eq. split; [reflexivity|]. split; [reflexivity|]. eauto. }
        rewrite lookup_insert_ne in Hin by congruence.
        destruct (Inv2 n p Hin) as (ev0 & Hp0 & Hr0 & _). congruence.
      * assert (Hold : q ∈ default [] (Rounds hg !! n)).
        { destruct (decide (n = RoundCreated ev)) as [->|Hn].
          - rewrite lookup_insert_eq in Hin. simpl in Hin.
            apply elem_of_app in Hin as [Hin|Hin]; [exact Hin|].
            apply list_elem_of_singleton in Hin. congruence.
          - rewrite lookup_insert_ne in Hin by congruence. exact Hin. }
        destruct (Inv2 n q Hold) as (evq & Hq & Hr & Hh & Hs).
        exists evq. rewrite lookup_insert_ne by congruence.
        repeat split; try assumption.
        destruct (decide (Hash evq = hashEvent ev)) as [->|Hne].
        { rewrite lookup_insert_eq. eauto. }
        rewrite lookup_insert_ne by congruence. exact Hs.
  - split; simpl.
    + intros k q Hk. destruct (Inv1 k q Hk) as (evq & Hq & Hin).
      destruct (decide (q = p)) as [->|Hqp].
      * assert (evq = ev) as -> by congruence.
        eexists. rewrite lookup_insert_eq. split; [reflexivity|]. exact Hin.
      * exists evq. rewrite lookup_insert_ne by congruence. split; assumption.
    + intros n q Hin. destruct (Inv2 n q Hin) as (evq & Hq & Hr & Hh & Hs).
      destruct (decide (q = p)) as [->|Hqp].
      * assert (evq = ev) as -> by congruence.
        eexists. rewrite lookup_insert_eq. split; [reflexivity|]. simpl.
        split; [exact Hr|]. split; [reflexivity|]. rewrite <- Hh. exact Hs.
      * exists evq. rewrite lookup_insert_ne by congruence. repeat split; assumption.
Qed.

Lemma new_event_keeps_indexes (hg : Hashgraph) (w : World) (p : ptr) (ev : Event) :
  indexes_agree hg w ->
  heap w !! p = None ->
  indexes_agree hg (mkWorld (<[p := ev]> (heap w)) (randReader w)).
Proof.
  intros [Inv1 Inv2] Hp. split; simpl.
  - intros k q Hk. destruct (Inv1 k q Hk) as (evq & Hq & Hin).
    exists evq. rewrite lookup_insert_ne by congruence. split; assumption.
  - intros n q Hin. destruct (Inv2 n q Hin) as (evq & Hq & Hrest).
    exists evq. rewrite lookup_insert_ne by congruence. split; assumption.
Qed.

Lemma reachable_indexes (st : State) :
  reachable st -> indexes_agree (store st) (world st).
Proof.
  induction 1 as [priv pub rand | st st' _ IH Hstep].
  - split; simpl.
    + intros k p Hk. rewrite lookup_empty in Hk. discriminate.
    + intros n p Hin. rewrite lookup_empty in Hin. simpl in Hin.
      apply elem_of_nil in Hin. contradiction.
  - destruct Hstep as [st p ev Hp | st p r hg' w' Hadd]; simpl.
    + apply new_event_keeps_indexes; assumption.
    + eapply AddEvent_keeps_indexes; eassumption.
Qed.

(** X5.  In every store the program reaches the two indexes agree: the
    event a key of [Events] leads to is in the bucket of its round, and an
    event in the bucket of a round has that round, carries its own digest
    as [Hash], and that hash is a key of [Events]. *)
Theorem rounds_and_events_agree (st : State) (k : string) (n : Z) (p : ptr) :
  reachable st ->
  (Events (store st) !! k = Some p ->
   exists ev, heap (world st) !! p = Some ev /\
              p ∈ default [] (Rounds (store st) !! RoundCreated ev)) /\
  (p ∈ default [] (Rounds (store st) !! n) ->
   exists ev, heap (world st) !! p = Some ev /\ RoundCreated ev = n /\
              Hash ev = hashEvent ev /\ is_Some (Events (store st) !! Hash ev)).
Proof.
  intros Hreach. destruct (reachable_indexes st Hreach) as [Inv1 Inv2].
  split; [apply Inv1 | apply Inv2].
Qed.

(* --------------------------------------------------------------------- *)
(** ** Field boundaries *)

Lemma bytes_of_string_app (a b : string) :
  bytes_of_string (a ++ b)%string = bytes_of_string a ++ bytes_of_string b.
Proof.
  unfold bytes_of_string, list_byte_of_string.
  induction a as [|c a IH]; simpl; [reflexivity|].
  f_equal. exact IH.
Qed.

(** X6.  [hashEvent] puts no mark between the fields: bytes moved from the
    end of the creator to the front of the selfParent, or from the end of
    the selfParent to the front of the otherParent, leave the hash as it
    is. *)
Theorem hashEvent_ignores_field_boundaries
    (txs : list (list byte)) (a b c : string) (x : string) (ts : time.Time)
    (sig h : string) (rc : Z) (fa : option bool) (wi : bool) (lt : Z) :
  hashEvent (mkEvent txs b c (a ++ x)%string ts sig h rc fa wi lt) =
  hashEvent (mkEvent txs (x ++ b)%string c a ts sig h rc fa wi lt) /\
  hashEvent (mkEvent txs (b ++ x)%string c a ts sig h rc fa wi lt) =
  hashEvent (mkEvent txs b (x ++ c)%string a ts sig h rc fa wi lt).
Proof.
  rewrite !hashEvent_preimage. unfold preimage. simpl.
  rewrite !bytes_of_string_app, <- !app_assoc. split; reflexivity.
Qed.

(* --------------------------------------------------------------------- *)
(** ** The input goroutine *)

Lemma selectTarget_bounds (nodes lines : list string) (i : Z) (rest : list string) :
  selectTarget nodes lines = Some (i, rest) ->
  0 <= i < Z.of_nat (length nodes).
Proof.
  induction lines as [|input lines IH]; simpl; [discriminate|].
  destruct (strconv.Atoi input) as [index|]; [|exact IH].
  destruct ((0 <? index) && (index <=? Z.of_nat (length nodes))) eqn:Hok; [|exact IH].
  intros [= <- <-]. apply andb_true_iff in Hok as [H1 H2].
  apply Z.ltb_lt in H1. apply Z.leb_le in H2. lia.
Qed.

Lemma index_nodes_in_bounds (nodes : list string) (i : Z) :
  0 <= i < Z.of_nat (length nodes) -> is_Some (index_nodes nodes i).
Proof.
  intros Hi. unfold index_nodes.
  destruct (i <? 0) eqn:E; [apply Z.ltb_lt in E; lia|].
  apply lookup_lt_is_Some. lia.
Qed.

(** What a pass of the outer loop does once a text and a target are there. *)
Lemma main_input_eq (nodes : list string) (now : time.Time) (text : string)
    (lines rest : list string) (i : Z) (targetNode : string)
    (hg : Hashgraph) (w : World) :
  text <> "" -> nodes <> [] ->
  selectTarget nodes lines = Some (i, rest) ->
  index_nodes nodes i = Some targetNode ->
  let p := fresh (dom (heap w)) in
  let ev := mkEvent [bytes_of_string text] "selfParentHash" "otherParentHash" "userID"
                    now "" "" 0 None false 0 in
  main_input nodes now (text :: lines) hg w =
  match ecdsa.Sign (randReader w) (privateKey hg)
          (sha256.Sum256 (bytes_of_string (hashEvent ev))) with
  | (inr err, rand) =>
      Sent rest (server.mkMessage "event" "" "" "" "" (Some (setHash (hashEvent ev) ev))
                   targetNode)
           (Some err) hg
           (mkWorld (<[p := setHash (hashEvent ev) ev]> (heap w)) rand)
  | (inl (r, s), rand) =>
      let signed := setSignature (hex.EncodeToString (big.Bytes r ++ big.Bytes s))
                      (setHash (hashEvent ev) ev) in
      Sent rest (server.mkMessage "event" "" "" "" "" (Some signed) targetNode) None
           (mkHashgraph (<[hashEvent ev := p]> (Events hg))
              (<[0 := default [] (Rounds hg !! 0) ++ [p]]> (Rounds hg))
              (privateKey hg) (publicKey hg))
           (mkWorld (<[p := signed]> (heap w)) rand)
  end.
Proof.
  intros Htext Hnodes Hsel Hidx p ev. unfold main_input.
  destruct (String.eqb_spec text ""); [contradiction|].
  destruct nodes as [|n0 nodes]; [contradiction|]. simpl Nat.eqb. cbv iota.
  rewrite Hsel, Hidx. cbv zeta. fold p. fold ev.
  rewrite (AddEvent_eq hg p _ ev) by (simpl; apply lookup_insert_eq).
  simpl. destruct (ecdsa.Sign _ _ _) as [[[r s]|err] rand]; simpl;
    rewrite lookup_insert_eq, insert_insert_eq; reflexivity.
Qed.

(** X7.  A pass of the input loop never panics: the index it takes into
    [nodes] is within bounds and the event it hands to [AddEvent] is there,
    so the pass ends waiting for input, going round again, or sending. *)
Theorem main_input_never_panics (nodes : list string) (now : time.Time)
    (lines : list string) (hg : Hashgraph) (w : World) :
  main_input nodes now lines hg w = Waiting \/
  (exists rest, main_input nodes now lines hg w = Again rest) \/
  (exists rest msg addErr hg' w',
      main_input nodes now lines hg w = Sent rest msg addErr hg' w').
Proof.
  destruct lines as [|text lines]; [left; reflexivity|].
  destruct (String.eqb_spec text "") as [->|Htext]; [right; left; eexists; reflexivity|].
  destruct (decide (nodes = [])) as [->|Hnodes].
  { right. left. exists lines. simpl. destruct (String.eqb text ""); reflexivity. }
  destruct (selectTarget nodes lines) as [[i rest]|] eqn:Hsel.
  - destruct (index_nodes_in_bounds nodes i (selectTarget_bounds _ _ _ _ Hsel))
      as [targetNode Hidx].
    right. right.
    rewrite (main_input_eq nodes now text lines rest i targetNode hg w Htext Hnodes Hsel Hidx).
    cbv zeta. destruct (ecdsa.Sign _ _ _) as [[[r s]|err] rand]; do 5 eexists; reflexivity.
  - left. unfold main_input.
    destruct (String.eqb_spec text "") as [E|_]; [contradiction|].
    destruct nodes as [|n0 ns]; [contradiction|].
    simpl Nat.eqb. cbv iota. rewrite Hsel. reflexivity.
Qed.

(** X8.  The target is chosen by the first line that reads as a number
    between 1 and the number of nodes: the lines before it are skipped, the
    index is that number less one, and the node is there. *)
Theorem selectTarget_first_valid_line (nodes lines : list string) (i : Z)
    (rest : list string) :
  selectTarget nodes lines = Some (i, rest) ->
  exists skipped input,
    lines = skipped ++ input :: rest /\
    strconv.Atoi input = Some (i + 1) /\
    1 <= i + 1 <= Z.of_nat (length nodes) /\
    is_Some (index_nodes nodes i) /\
    Forall (fun line => forall n, strconv.Atoi line = Some n ->
                                  ~ (1 <= n <= Z.of_nat (length nodes))) skipped.
Proof.
  induction lines as [|line lines IH]; simpl; [discriminate|].
  intros Hsel.
  assert (Hskip :
    (forall n, strconv.Atoi line = Some n -> ~ (1 <= n <= Z.of_nat (length nodes))) ->
    selectTarget nodes lines = Some (i, rest) ->
    exists skipped input,
      line :: lines = skipped ++ input :: rest /\
      strconv.Atoi input = Some (i + 1) /\
      1 <= i + 1 <= Z.of_nat (length nodes) /\
      is_Some (index_nodes nodes i) /\
      Forall (fun line => forall n, strconv.Atoi line = Some n ->
                                    ~ (1 <= n <= Z.of_nat (length nodes))) skipped).
  { intros Hbad Hrec. destruct (IH Hrec) as (skipped & input & -> & Ha & Hb & Hi & Hall).
    exists (line :: skipped), input. repeat split; try assumption; try lia.
    constructor; assumption. }
  destruct (strconv.Atoi line) as [index|] eqn:Hat.
  - destruct ((0 <? index) && (index <=? Z.of_nat (length nodes))) eqn:Hok.
    + injection Hsel as <- <-. apply andb_true_iff in Hok as [H1 H2].
      apply Z.ltb_lt in H1. apply Z.leb_le in H2.
      exists [], line. replace (index - 1 + 1) with index by lia.
      repeat split; try assumption; try lia.
      * apply index_nodes_in_bounds. lia.
      * constructor.
    + apply Hskip; [|exact Hsel]. intros n [= <-] [H1 H2].
      apply andb_false_iff in Hok as [Hok|Hok];
        [apply Z.ltb_ge in Hok | apply Z.leb_gt in Hok]; lia.
  - apply Hskip; [|exact Hsel]. intros n Hn. discriminate Hn.
Qed.

(** X9.  When a pass of the input loop sends, it sends one event message to
    a node of the list, carrying the event it built from the text, with its
    digest as [Hash].  After a successful [AddEvent] the store leads to
    that event under its hash.  After a failed one the message goes out all
    the same: the store is as before and the event is unsigned, so that
    [verifyEventSignature] rejects it under every key. *)
Theorem main_input_sends_what_it_built (nodes : list string) (now : time.Time)
    (lines : list string) (hg : Hashgraph) (w : World)
    (rest : list string) (msg : server.Message Event) (addErr : option error)
    (hg' : Hashgraph) (w' : World) :
  main_input nodes now lines hg w = Sent rest msg addErr hg' w' ->
  exists text ev p,
    head lines = Some text /\ text <> "" /\
    server.Type_ msg = "event" /\ server.TargetNode msg ∈ nodes /\
    server.Event_ msg = Some ev /\
    heap w !! p = None /\ heap w' !! p = Some ev /\
    Transactions ev = [bytes_of_string text] /\ Creator ev = "userID" /\
    SelfParent ev = "selfParentHash" /\ OtherParent ev = "otherParentHash" /\
    Timestamp ev = now /\ RoundCreated ev = 0 /\
    Hash ev = hashEvent ev /\
    match addErr with
    | None => Events hg' !! Hash ev = Some p
    | Some _ =>
        hg' = hg /\ Signature ev = "" /\
        forall pk, verifyEventSignature ev pk = false
    end.
Proof.
  intros Hsent.
  destruct lines as [|text lines]; [discriminate|].
  destruct (String.eqb_spec text "") as [->|Htext]; [discriminate|].
  destruct (decide (nodes = [])) as [->|Hnodes];
    [simpl in Hsent; destruct (String.eqb text ""); discriminate|].
  destruct (selectTarget nodes lines) as [[i rest0]|] eqn:Hsel.
  2:{ unfold main_input in Hsent. destruct (String.eqb text ""); [discriminate|].
      destruct (length nodes =? 0)%nat; [discriminate|]. rewrite Hsel in Hsent.
      discriminate. }
  destruct (index_nodes_in_bounds nodes i (selectTarget_bounds _ _ _ _ Hsel))
    as [targetNode Hidx].
  rewrite (main_input_eq nodes now text lines rest0 i targetNode hg w Htext Hnodes Hsel Hidx)
    in Hsent.
  cbv zeta in Hsent.
  assert (Hfresh : heap w !! fresh (dom (heap w)) = None)
    by (apply not_elem_of_dom, is_fresh).
  assert (Hin : targetNode ∈ nodes).
  { unfold index_nodes in Hidx. destruct (i <? 0); [discriminate|].
    eapply list_elem_of_lookup_2, Hidx. }
  set (ev0 := mkEvent [bytes_of_string text] _ _ _ _ _ _ _ _ _ _) in Hsent.
  destruct (ecdsa.Sign _ _ _) as [[[r s]|err] rand]; injection Hsent as <- <- <- <- <-.
  - exists text,
      (setSignature (hex.EncodeToString (big.Bytes r ++ big.Bytes s))
         (setHash (hashEvent ev0) ev0)),
      (fresh (dom (heap w))).
    simpl. rewrite !lookup_insert_eq.
    repeat split; try assumption; reflexivity.
  - exists text, (setHash (hashEvent ev0) ev0), (fresh (dom (heap w))).
    simpl. rewrite !lookup_insert_eq.
    repeat split; try assumption; try reflexivity.
Qed.

(* --------------------------------------------------------------------- *)
(** ** The reader goroutine *)

(** The reader over one batch of frames after another. *)
Lemma main_reader_app (pk : ecdsa.PublicKey) (pre post : list frame)
    (hg : Hashgraph) (w : World) :
  main_reader pk (pre ++ post) hg w =
  match main_reader pk pre hg w with
  | (NextMessage, hg1, w1, log1) =>
      let '(c, hg2, w2, log2) := main_reader pk post hg1 w1 in
      (c, hg2, w2, log1 ++ log2)
  | stopped => stopped
  end.
Proof.
  revert hg w. induction pre as [|f pre IH]; intros hg w; simpl.
  - destruct (main_reader pk post hg w) as [[[c hg2] w2] log2]. reflexivity.
  - destruct (main_reader_step pk f hg w) as [[[c hg1] w1] log1].
    destruct c; try reflexivity.
    rewrite IH.
    destruct (main_reader pk pre hg1 w1) as [[[c' hg2] w2] log2].
    destruct c'; try reflexivity.
    destruct (main_reader pk post hg2 w2) as [[[c'' hg3] w3] log3].
    rewrite app_assoc. reflexivity.
Qed.

(** The result of the reader, the log apart, one frame at a time. *)
Lemma main_reader_cons (pk : ecdsa.PublicKey) (f : frame) (rest : list frame)
    (hg : Hashgraph) (w : World) :
  (main_reader pk (f :: rest) hg w).1 =
  match main_reader_step pk f hg w with
  | (NextMessage, hg1, w1, _) => (main_reader pk rest hg1 w1).1
  | (c, hg1, w1, _) => (c, hg1, w1)
  end.
Proof.
  simpl. destruct (main_reader_step pk f hg w) as [[[c hg1] w1] log1].
  destruct c; try reflexivity.
  destruct (main_reader pk rest hg1 w1) as [[[c' hg2] w2] log2]. reflexivity.
Qed.

(** A frame of the handshake leaves store and structs alone; it ends the
    goroutine unless it goes through. *)
Lemma handshake_step (pk : ecdsa.PublicKey) (f : frame) (hg : Hashgraph) (w : World) :
  is_event f = false ->
  exists log,
    main_reader_step pk f hg w =
    (if goes_through f then NextMessage else Return, hg, w, log).
Proof.
  destruct f as [err|err|[err|sdp] [err'|] [err''|]|[err|]|o|]; simpl;
    try discriminate; intros _; eexists; reflexivity.
Qed.

(** X10.  The handshake and the store.  Frames that carry no event never
    change the store or an event struct.  As long as those that arrive go
    through, the reader ends with the control, store and structs it would
    have had the event messages arrived alone; the first one that does not
    go through (a failed read or parse, answer, local description, write or
    candidate) ends the goroutine there, with the store it had. *)
Theorem handshake_leaves_store_alone (pk : ecdsa.PublicKey) (hg : Hashgraph) (w : World) :
  (forall frames,
      Forall (fun f => is_event f = false) frames ->
      (main_reader pk frames hg w).1.1.2 = hg /\ (main_reader pk frames hg w).1.2 = w) /\
  (forall frames,
      Forall (fun f => is_event f = true \/ goes_through f = true) frames ->
      (main_reader pk frames hg w).1 = (main_reader pk (List.filter is_event frames) hg w).1) /\
  (forall pre f post hg1 w1 log1,
      main_reader pk pre hg w = (NextMessage, hg1, w1, log1) ->
      is_event f = false -> goes_through f = false ->
      exists log,
        main_reader pk (pre ++ f :: post) hg w = (Return, hg1, w1, log1 ++ log)).
Proof.
  split; [|split].
  - intros frames. revert hg w. induction frames as [|f frames IH]; intros hg w Hall.
    + split; reflexivity.
    + inversion Hall as [|? ? Hf Hrest]; subst.
      destruct (handshake_step pk f hg w Hf) as [log Hstep].
      rewrite main_reader_cons, Hstep.
      destruct (goes_through f); [apply IH, Hrest | split; reflexivity].
  - intros frames. revert hg w. induction frames as [|f frames IH]; intros hg w Hall.
    + reflexivity.
    + inversion Hall as [|? ? Hf Hrest]; subst.
      rewrite main_reader_cons. simpl List.filter.
      destruct (is_event f) eqn:He.
      * rewrite main_reader_cons.
        destruct (main_reader_step pk f hg w) as [[[c hg1] w1] log1].
        destruct c; try reflexivity. apply IH, Hrest.
      * destruct Hf as [Hf|Hf]; [discriminate|].
        destruct (handshake_step pk f hg w He) as [log Hstep].
        rewrite Hstep, Hf. apply IH, Hrest.
  - intros pre f post hg1 w1 log1 Hpre He Hf.
    destruct (handshake_step pk f hg1 w1 He) as [log Hstep]. rewrite Hf in Hstep.
    exists log. rewrite main_reader_app, Hpre. simpl. rewrite Hstep. reflexivity.
Qed.

(** X11.  One event whose signature does not verify ends the reception: the
    goroutine returns at that frame, with the store it had before it, and
    no later event is added. *)
Theorem invalid_event_ends_reception (pk : ecdsa.PublicKey) (pre post : list frame)
    (ev : Event) (hg : Hashgraph) (w : World)
    (hg1 : Hashgraph) (w1 : World) (log1 : list string) :
  main_reader pk pre hg w = (NextMessage, hg1, w1, log1) ->
  verifyEventSignature ev pk = false ->
  main_reader pk (pre ++ EventFrame (Some ev) :: post) hg w =
  (Return, hg1,
   mkWorld (<[fresh (dom (heap w1)) := ev]> (heap w1)) (randReader w1),
   log1 ++ ["Receive event"; "Event signature verification failed"]).
Proof.
  intros Hpre Hv. rewrite main_reader_app, Hpre. simpl.
  unfold main_case_event. simpl. rewrite lookup_insert_eq, Hv. reflexivity.
Qed.

(** Whatever the two goroutines do to a state is a sequence of steps. *)
Lemma main_case_event_reachable (msgEvent : option ptr) (pk : ecdsa.PublicKey)
    (hg : Hashgraph) (w : World)
    (c : control) (hg' : Hashgraph) (w' : World) (log : list string) :
  reachable (mkState hg w) ->
  main_case_event msgEvent pk hg w = (c, hg', w', log) ->
  reachable (mkState hg' w').
Proof.
  intros Hreach Hrun. unfold main_case_event in Hrun. cbv zeta in Hrun.
  destruct msgEvent as [p|]; [|injection Hrun as <- <- <- <-; exact Hreach].
  destruct (heap w !! p) as [ev|]; [|injection Hrun as <- <- <- <-; exact Hreach].
  destruct (negb (verifyEventSignature ev pk));
    [injection Hrun as <- <- <- <-; exact Hreach|].
  destruct (AddEvent hg p w) as [[r hg2] w2] eqn:Hadd.
  assert (Hnext : reachable (mkState hg2 w2))
    by (apply (reach_step (mkState hg w)); [exact Hreach|];
        apply (step_AddEvent (mkState hg w) p r); exact Hadd).
  destruct r as [[err|]|]; injection Hrun as <- <- <- <-; exact Hnext.
Qed.

Lemma main_reader_step_reachable (pk : ecdsa.PublicKey) (f : frame)
    (hg : Hashgraph) (w : World)
    (c : control) (hg' : Hashgraph) (w' : World) (log : list string) :
  reachable (mkState hg w) ->
  main_reader_step pk f hg w = (c, hg', w', log) ->
  reachable (mkState hg' w').
Proof.
  intros Hreach Hrun.
  destruct f as [err|err|answer setLocal write|add|[ev|]|];
    cbv beta iota zeta delta [main_reader_step] in Hrun.
  - injection Hrun as <- <- <- <-. exact Hreach.
  - injection Hrun as <- <- <- <-. exact Hreach.
  - destruct answer as [err|sdp]; [injection Hrun as <- <- <- <-; exact Hreach|].
    destruct setLocal as [err|]; [injection Hrun as <- <- <- <-; exact Hreach|].
    destruct write as [err|]; injection Hrun as <- <- <- <-; exact Hreach.
  - destruct add as [err|]; injection Hrun as <- <- <- <-; exact Hreach.
  - eapply main_case_event_reachable; [|exact Hrun].
    apply (reach_step (mkState hg w)); [exact Hreach|].
    apply (step_new (mkState hg w) (fresh (dom (heap w))) ev).
    apply not_elem_of_dom, is_fresh.
  - eapply main_case_event_reachable; eassumption.
  - injection Hrun as <- <- <- <-. exact Hreach.
Qed.

Lemma main_reader_reachable (pk : ecdsa.PublicKey) (frames : list frame)
    (hg : Hashgraph) (w : World)
    (c : control) (hg' : Hashgraph) (w' : World) (log : list string) :
  reachable (mkState hg w) ->
  main_reader pk frames hg w = (c, hg', w', log) ->
  reachable (mkState hg' w').
Proof.
  revert hg w c hg' w' log.
  induction frames as [|f frames IH]; intros hg w c hg' w' log Hreach Hrun; simpl in Hrun.
  - injection Hrun as <- <- <- <-. exact Hreach.
  - destruct (main_reader_step pk f hg w) as [[[c1 hg1] w1] log1] eqn:Hstep.
    pose proof (main_reader_step_reachable _ _ _ _ _ _ _ _ Hreach Hstep) as H1.
    destruct c1; try (injection Hrun as <- <- <- <-; exact H1).
    destruct (main_reader pk frames hg1 w1) as [[[c2 hg2] w2] log2] eqn:Hrest.
    injection Hrun as <- <- <- <-. eapply IH; eassumption.
Qed.

Lemma main_input_reachable (nodes : list string) (now : time.Time)
    (lines : list string) (hg : Hashgraph) (w : World)
    (rest : list string) (msg : server.Message Event) (addErr : option error)
    (hg' : Hashgraph) (w' : World) :
  reachable (mkState hg w) ->
  main_input nodes now lines hg w = Sent rest msg addErr hg' w' ->
  reachable (mkState hg' w').
Proof.
  intros Hreach Hsent. unfold main_input in Hsent.
  destruct lines as [|text lines]; [discriminate|].
  destruct (String.eqb text ""); [discriminate|].
  destruct (length nodes =? 0)%nat; [discriminate|].
  destruct (selectTarget nodes lines) as [[i rest0]|]; [|discriminate].
  destruct (index_nodes nodes i) as [targetNode|]; [|discriminate].
  cbv zeta in Hsent.
  set (p := fresh (dom (heap w))) in *.
  set (ev0 := mkEvent _ _ _ _ _ _ _ _ _ _ _) in *.
  destruct (AddEvent hg p _) as [[r hg2] w2] eqn:Hadd.
  destruct r as [err|]; [|discriminate].
  destruct (heap w2 !! p); [|discriminate].
  injection Hsent as <- <- <- <- <-.
  apply (reach_step (mkState hg (mkWorld (<[p := ev0]> (heap w)) (randReader w)))).
  - apply (reach_step (mkState hg w)); [exact Hreach|].
    apply (step_new (mkState hg w) p ev0). apply not_elem_of_dom, is_fresh.
  - apply (step_AddEvent _ p (Returns err)). exact Hadd.
Qed.

(** X12.  Whatever arrives at the reader goroutine and whatever is typed at
    the input goroutine, the store they leave is one the program reaches by
    building events and calling [AddEvent]; so its keys are the digests of
    the events they lead to, and its two indexes agree. *)
Theorem goroutines_keep_the_store_sound :
  (forall pk frames st c hg' w' log,
      reachable st ->
      main_reader pk frames (store st) (world st) = (c, hg', w', log) ->
      reachable (mkState hg' w') /\ keys_are_digests hg' w' /\ indexes_agree hg' w') /\
  (forall nodes now lines st rest msg addErr hg' w',
      reachable st ->
      main_input nodes now lines (store st) (world st) = Sent rest msg addErr hg' w' ->
      reachable (mkState hg' w') /\ keys_are_digests hg' w' /\ indexes_agree hg' w').
Proof.
  split.
  - intros pk frames [hg w] c hg' w' log Hreach Hrun. simpl in Hrun.
    pose proof (main_reader_reachable _ _ _ _ _ _ _ _ Hreach Hrun) as H.
    split; [exact H|]. split; [apply (reachable_keys _ H) | apply (reachable_indexes _ H)].
  - intros nodes now lines [hg w] rest msg addErr hg' w' Hreach Hsent. simpl in Hsent.
    pose proof (main_input_reachable _ _ _ _ _ _ _ _ _ _ Hreach Hsent) as H.
    split; [exact H|]. split; [apply (reachable_keys _ H) | apply (reachable_indexes _ H)].
Qed.

(* --------------------------------------------------------------------- *)
(** ** The relay *)

Section RelayFacts.

Context {E : Type}.
Variable addEvent :
  string -> string -> string -> list (list byte) -> ecdsa.PrivateKey -> option error.
Variable writeJSON : server.Conn -> server.Message E -> option error.

(** The writes of the [event] case. *)
Lemma case_event_writes (sessions : gmap string server.Conn) (nodeID : string)
    (msg m : server.Message E) (c : server.Conn) :
  server.WriteJSON c m ∈
    server.signalHandler_case_event addEvent writeJSON sessions nodeID msg ->
  m = msg /\ server.TargetNode msg <> nodeID /\
  sessions !! server.TargetNode msg = Some c.
Proof.
  unfold server.signalHandler_case_event. cbv zeta.
  destruct (addEvent _ _ _ _ _) as [e|];
    destruct (String.eqb_spec (server.TargetNode msg) nodeID) as [Heq|Hne];
    try destruct (sessions !! server.TargetNode msg) as [targetConn|];
    try destruct (writeJSON targetConn msg) as [e'|];
    intros Hin;
    repeat (apply elem_of_app in Hin as [Hin|Hin] || apply elem_of_cons in Hin as [Hin|Hin]);
    try (apply elem_of_nil in Hin; contradiction);
    try discriminate Hin;
    injection Hin as -> ->; auto.
Qed.

Lemma pass_goes_on (sessions : gmap string server.Conn) (nodeID : string)
    (rcv : server.received E) :
  (forall e, rcv <> server.ReadFails e) ->
  (server.signalHandler_pass addEvent writeJSON sessions nodeID rcv).1 = true.
Proof.
  intros Hrcv. destruct rcv as [e|e|msg]; simpl.
  - destruct (Hrcv e). reflexivity.
  - reflexivity.
  - repeat (destruct (String.eqb _ _); [reflexivity|]). reflexivity.
Qed.

(** The writes of one pass of the loop. *)
Lemma pass_writes (sessions : gmap string server.Conn) (nodeID : string)
    (rcv : server.received E) (c : server.Conn) (m : server.Message E) :
  server.WriteJSON c m ∈
    (server.signalHandler_pass addEvent writeJSON sessions nodeID rcv).2 ->
  rcv = server.Parsed m /\ server.Type_ m = "event" /\
  server.TargetNode m <> nodeID /\ sessions !! server.TargetNode m = Some c.
Proof.
  destruct rcv as [e|e|msg]; simpl.
  - intros Hin. apply list_elem_of_singleton in Hin. discriminate Hin.
  - intros Hin. apply list_elem_of_singleton in Hin. discriminate Hin.
  - destruct (String.eqb (server.Type_ msg) "offer");
      [simpl; intros Hin; apply list_elem_of_singleton in Hin; discriminate Hin|].
    destruct (String.eqb (server.Type_ msg) "answer");
      [simpl; intros Hin; apply list_elem_of_singleton in Hin; discriminate Hin|].
    destruct (String.eqb (server.Type_ msg) "candidate");
      [simpl; intros Hin; apply list_elem_of_singleton in Hin; discriminate Hin|].
    destruct (String.eqb_spec (server.Type_ msg) "event") as [Hty|_]; simpl.
    + intros Hin. apply case_event_writes in Hin as (-> & Hne & Hs). auto.
    + intros Hin. apply elem_of_nil in Hin. contradiction.
Qed.

(** X13.  In one pass of its loop the relay writes at most once, and only
    an event message: to the connection registered for the target of the
    message, which is not the sender.  Offers, answers and candidates are
    logged and go nowhere. *)
Theorem relay_pass_writes_one_event (sessions : gmap string server.Conn)
    (nodeID : string) (rcv : server.received E) (c : server.Conn)
    (m : server.Message E) :
  server.WriteJSON c m ∈
    (server.signalHandler_pass addEvent writeJSON sessions nodeID rcv).2 ->
  rcv = server.Parsed m /\ server.Type_ m = "event" /\
  server.TargetNode m <> nodeID /\ sessions !! server.TargetNode m = Some c /\
  server.forwarded (server.signalHandler_pass addEvent writeJSON sessions nodeID rcv).2 = [c].
Proof.
  intros Hin. destruct (pass_writes _ _ _ _ _ Hin) as (-> & Hty & Hne & Hs).
  repeat split; try assumption.
  simpl. rewrite Hty. simpl.
  unfold server.signalHandler_case_event. cbv zeta.
  destruct (String.eqb_spec (server.TargetNode m) nodeID) as [Heq|_]; [contradiction|].
  rewrite Hs.
  destruct (addEvent _ _ _ _ _); destruct (writeJSON c m); reflexivity.
Qed.

(** X14.  A node that is not registered and does not connect is never the
    target of a write, whatever the others send. *)
Theorem relay_never_writes_to_absent_node (sessions : gmap string server.Conn)
    (hs : list (server.happening E)) (id : string) (c : server.Conn)
    (m : server.Message E) :
  sessions !! id = None ->
  (forall conn, server.Opens id conn ∉ hs) ->
  server.WriteJSON c m ∈ (server.relay_run addEvent writeJSON sessions hs).2 ->
  server.TargetNode m <> id.
Proof.
  revert sessions. induction hs as [|hp hs IH]; intros sessions Hnone Hopens; simpl.
  - intros Hin. apply elem_of_nil in Hin. contradiction.
  - destruct (server.relay_step addEvent writeJSON sessions hp) as [s1 effects] eqn:Hstep.
    destruct (server.relay_run addEvent writeJSON s1 hs) as [s2 more] eqn:Hrun.
    simpl. intros Hin. apply elem_of_app in Hin as [Hin|Hin].
    + destruct hp as [err|id' conn|nodeID rcv]; simpl in Hstep.
      * injection Hstep as <- <-. apply list_elem_of_singleton in Hin. discriminate Hin.
      * injection Hstep as <- <-. apply elem_of_nil in Hin. contradiction.
      * destruct (server.signalHandler_pass _ _ _ _ _) as [goes_on eff] eqn:Hpass.
        injection Hstep as <- <-.
        assert (Hin' : server.WriteJSON c m ∈
                  (server.signalHandler_pass addEvent writeJSON sessions nodeID rcv).2)
          by (rewrite Hpass; exact Hin).
        apply pass_writes in Hin' as (_ & _ & _ & Hs). congruence.
    + assert (Hs1 : s1 !! id = None).
      { destruct hp as [err|id' conn|nodeID rcv]; simpl in Hstep.
        - injection Hstep as <- <-. exact Hnone.
        - injection Hstep as <- <-.
          assert (id' <> id).
          { intros ->. apply (Hopens conn). apply elem_of_cons. left. reflexivity. }
          rewrite lookup_insert_ne by assumption. exact Hnone.
        - destruct (server.signalHandler_pass _ _ _ _ _) as [[|] eff];
            injection Hstep as <- <-; [exact Hnone|].
          unfold server.unregisterNode. apply lookup_delete_None. right. exact Hnone. }
      assert (Hin' : server.WriteJSON c m ∈ (server.relay_run addEvent writeJSON s1 hs).2)
        by (rewrite Hrun; exact Hin).
      apply (IH s1 Hs1); [|exact Hin'].
      intros conn Hc. apply (Hopens conn). apply elem_of_cons. right. exact Hc.
Qed.

Lemma relay_run_visit (sessions : gmap string server.Conn) (id : string)
    (rcvs : list (server.received E)) (rest : list (server.happening E)) :
  Forall (fun rcv => forall e, rcv <> server.ReadFails e) rcvs ->
  (server.relay_run addEvent writeJSON sessions (map (server.Receives id) rcvs ++ rest)).1 =
  (server.relay_run addEvent writeJSON sessions rest).1.
Proof.
  induction 1 as [|rcv rcvs Hrcv _ IH]; [reflexivity|]. simpl.
  pose proof (pass_goes_on sessions id rcv Hrcv) as Hgo.
  destruct (server.signalHandler_pass _ _ _ _ _) as [goes_on eff]. simpl in Hgo. subst goes_on.
  cbv iota. rewrite <- IH.
  destruct (server.relay_run addEvent writeJSON sessions _) as [s2 more]. reflexivity.
Qed.

(** X15.  A connection leaves the registry as it found it: a node that
    registers under a new id is on line at once, stays so while its reads
    succeed (a message that does not parse does not end the connection),
    and is taken out when a read fails. *)
Theorem relay_connection_lifecycle (sessions : gmap string server.Conn)
    (id : string) (conn : server.Conn) (rcvs : list (server.received E)) (err : error) :
  sessions !! id = None ->
  Forall (fun rcv => forall e, rcv <> server.ReadFails e) rcvs ->
  (server.relay_run addEvent writeJSON sessions
     (server.Opens id conn :: map (server.Receives id) rcvs)).1 !! id = Some conn /\
  (server.relay_run addEvent writeJSON sessions
     (server.Opens id conn :: map (server.Receives id) rcvs ++
      [server.Receives id (server.ReadFails err)])).1 = sessions.
Proof.
  intros Hnone Hrcvs. split.
  - simpl.
    pose proof (relay_run_visit (<[id := conn]> sessions) id rcvs [] Hrcvs) as H.
    rewrite app_nil_r in H.
    destruct (server.relay_run addEvent writeJSON (<[id:=conn]> sessions) _) as [s2 more].
    simpl in *. rewrite H. apply lookup_insert_eq.
  - simpl.
    pose proof (relay_run_visit (<[id := conn]> sessions) id rcvs
                  [server.Receives id (server.ReadFails err)] Hrcvs) as H.
    destruct (server.relay_run addEvent writeJSON (<[id:=conn]> sessions) _) as [s2 more].
    simpl in *. rewrite H. unfold server.unregisterNode.
    apply delete_insert_id. exact Hnone.
Qed.

End RelayFacts.

(* --------------------------------------------------------------------- *)
(** ** The properties above at sample inputs *)

Lemma first_reachable : reachable (mkState sample.first.1.2 sample.first.2).
Proof.
  apply (reach_step (mkState sample.hg0 sample.typed)).
  - apply (reach_step (mkState sample.hg0 (mkWorld ∅ [sample.k0; sample.k1]))).
    + apply reach_NewHashgraph.
    + apply (step_new (mkState sample.hg0 (mkWorld ∅ [sample.k0; sample.k1]))
               1%positive sample.userEvent).
      reflexivity.
  - apply (step_AddEvent (mkState sample.hg0 sample.typed) 1%positive sample.first.1.1).
    apply AddEvent_components.
Qed.

Lemma unlucky_pair :
  ecdsa.Sign [sample.k27] sample.nodeKey
    (sha256.Sum256 (bytes_of_string sample.userHash)) =
  (inl (sample.r27, sample.s27), []).
Proof. vm_compute. reflexivity. Qed.

Lemma typed_input_result : sample.typedInput = sample.typedInputResult.
Proof. vm_compute. reflexivity. Qed.

Lemma signEvent_then_verify_reads_witness :
  signEvent 1%positive sample.nodeKey sample.unlucky =
    (Returns None,
     mkWorld (<[1%positive :=
                  setSignature
                    (hex.EncodeToString (big.Bytes sample.r27 ++ big.Bytes sample.s27))
                    sample.hashedEvent]> (heap sample.unlucky)) []) /\
  big.SetBytes (firstn (length (big.Bytes sample.r27 ++ big.Bytes sample.s27) / 2)
                  (big.Bytes sample.r27 ++ big.Bytes sample.s27)) <> sample.r27.
Proof.
  assert (Hsign : ecdsa.Sign (randReader sample.unlucky) sample.nodeKey
                    (sha256.Sum256 (bytes_of_string (Hash sample.hashedEvent))) =
                  (inl (sample.r27, sample.s27), [])).
  { assert (E1 : randReader sample.unlucky = [sample.k27]) by reflexivity.
    assert (E2 : Hash sample.hashedEvent = sample.userHash) by reflexivity.
    rewrite E1, E2. exact unlucky_pair. }
  destruct (signEvent_then_verify_reads 1%positive sample.nodeKey
              (ecdsa.Public sample.nodeKey) sample.unlucky sample.hashedEvent
              sample.r27 sample.s27 [] eq_refl Hsign)
    as (Hrun & _ & _ & Hun).
  split; [exact Hrun|].
  apply Hun. intros [H|H]; vm_compute in H; discriminate H.
Defined.

Lemma store_keys_are_64_hex_digits_witness :
  String.length (hashEvent sample.userEvent) = 64%nat /\
  exists bs, hex.DecodeString (hashEvent sample.userEvent) = Some bs /\ length bs = 32%nat.
Proof.
  apply (store_keys_are_64_hex_digits (mkState sample.first.1.2 sample.first.2)
           (hashEvent sample.userEvent) 1%positive first_reachable).
  simpl. rewrite first_result. vm_compute. reflexivity.
Defined.

Lemma short_or_odd_signature_never_verifies_witness :
  verifyEventSignature sample.userEvent (ecdsa.Public sample.nodeKey) = false.
Proof.
  apply short_or_odd_signature_never_verifies. left. simpl. lia.
Defined.

Lemma AddEvent_never_removes_witness :
  is_Some (Events sample.second.1.2 !! hashEvent sample.userEvent) /\
  (exists l', Rounds sample.second.1.2 !! 0 = Some ([1%positive] ++ l')) /\
  privateKey sample.second.1.2 = privateKey sample.first.1.2.
Proof.
  destruct (AddEvent_never_removes sample.first.1.2 1%positive sample.first.2
              sample.second.1.1 sample.second.1.2 sample.second.2
              (AddEvent_components sample.second))
    as (Hkeys & Hrounds & Hpriv & _).
  split; [|split; [|exact Hpriv]].
  - apply Hkeys. rewrite first_result. eexists. vm_compute. reflexivity.
  - apply Hrounds. rewrite first_result. reflexivity.
Defined.

Lemma rounds_and_events_agree_witness :
  exists ev, heap sample.first.2 !! 1%positive = Some ev /\
             1%positive ∈ default [] (Rounds sample.first.1.2 !! RoundCreated ev).
Proof.
  destruct (rounds_and_events_agree (mkState sample.first.1.2 sample.first.2)
              (hashEvent sample.userEvent) 0 1%positive first_reachable) as [Hkey _].
  apply Hkey. simpl. rewrite first_result. vm_compute. reflexivity.
Defined.

Lemma selectTarget_first_valid_line_witness :
  exists skipped input,
    ["9"; "2"; "next"] = skipped ++ input :: ["next"] /\
    strconv.Atoi input = Some (1 + 1) /\
    1 <= 1 + 1 <= Z.of_nat (length sample.nodes) /\
    is_Some (index_nodes sample.nodes 1) /\
    Forall (fun line => forall n, strconv.Atoi line = Some n ->
                                  ~ (1 <= n <= Z.of_nat (length sample.nodes))) skipped.
Proof.
  apply (selectTarget_first_valid_line sample.nodes ["9"; "2"; "next"] 1 ["next"]).
  reflexivity.
Defined.

Lemma main_input_sends_what_it_built_witness :
  exists rest msg err hg' w' ev,
    sample.typedInput = Sent rest msg (Some err) hg' w' /\
    hg' = sample.hg0 /\ server.TargetNode msg ∈ sample.nodes /\
    server.Event_ msg = Some ev /\ Hash ev = hashEvent ev /\ Signature ev = "" /\
    verifyEventSignature ev (ecdsa.Public sample.nodeKey) = false.
Proof.
  pose proof typed_input_result as Hrun. unfold sample.typedInputResult in Hrun.
  destruct (main_input_sends_what_it_built _ _ _ _ _ _ _ _ _ _ Hrun)
    as (text & ev & p & _ & _ & _ & Hin & Hmsg & _ & _ & _ & _ & _ & _ & _ & _ & Hh &
        Hhg & Hsig & Hv).
  eexists _, _, _, _, _, ev. split; [exact Hrun|].
  repeat split; try assumption. apply Hv.
Defined.

Lemma handshake_leaves_store_alone_witness :
  sample.readerRun.1 =
  (main_reader (ecdsa.Public sample.nodeKey) [EventFrame (Some sample.signedEvent)]
     sample.hg0 (mkWorld ∅ [sample.k1])).1.
Proof.
  destruct (handshake_leaves_store_alone (ecdsa.Public sample.nodeKey) sample.hg0
              (mkWorld ∅ [sample.k1])) as (_ & Hfilter & _).
  apply (Hfilter sample.wire).
  unfold sample.wire.
  repeat (apply List.Forall_cons; [first [left; reflexivity | right; reflexivity]|]).
  apply List.Forall_nil.
Defined.

Lemma invalid_event_ends_reception_witness :
  main_reader (ecdsa.Public sample.nodeKey)
    ([] ++ EventFrame (Some sample.forgedEvent) :: [EventFrame (Some sample.signedEvent)])
    sample.hg0 (mkWorld ∅ [sample.k1]) =
  (Return, sample.hg0,
   mkWorld (<[fresh (dom (∅ : gmap ptr Event)) := sample.forgedEvent]> ∅) [sample.k1],
   [] ++ ["Receive event"; "Event signature verification failed"]).
Proof.
  apply (invalid_event_ends_reception (ecdsa.Public sample.nodeKey) []
           [EventFrame (Some sample.signedEvent)] sample.forgedEvent
           sample.hg0 (mkWorld ∅ [sample.k1]) sample.hg0 (mkWorld ∅ [sample.k1]) []).
  - reflexivity.
  - vm_compute. reflexivity.
Defined.

Lemma goroutines_keep_the_store_sound_witness :
  keys_are_digests sample.readerRun.1.1.2 sample.readerRun.1.2 /\
  indexes_agree sample.readerRun.1.1.2 sample.readerRun.1.2.
Proof.
  destruct goroutines_keep_the_store_sound as [Hreader _].
  destruct (Hreader (ecdsa.Public sample.nodeKey) sample.wire
              (mkState sample.hg0 (mkWorld ∅ [sample.k1]))
              sample.readerRun.1.1.1 sample.readerRun.1.1.2 sample.readerRun.1.2
              sample.readerRun.2)
    as (_ & Hkeys & Hidx).
  - apply reach_NewHashgraph.
  - apply (case_event_components sample.readerRun).
  - split; assumption.
Defined.

Lemma relay_pass_writes_one_event_witness :
  server.Type_ sample.msgToB = "event" /\
  sample.sessions !! server.TargetNode sample.msgToB = Some 2%nat /\
  server.forwarded
    (server.signalHandler_pass sample.rejecting sample.writes sample.sessions "A"
       (server.Parsed sample.msgToB)).2 = [2%nat].
Proof.
  destruct (relay_pass_writes_one_event sample.rejecting sample.writes sample.sessions "A"
              (server.Parsed sample.msgToB) 2%nat sample.msgToB)
    as (_ & Hty & _ & Hs & Hf).
  - vm_compute. apply elem_of_cons. right. apply elem_of_cons. right.
    apply elem_of_cons. left. reflexivity.
  - repeat split; assumption.
Defined.

Lemma relay_never_writes_to_absent_node_witness :
  Forall (fun e => match e with
                   | server.WriteJSON c m => server.TargetNode m <> "C"
                   | server.Log _ => True
                   end)
    (server.relay_run sample.rejecting sample.writes sample.sessions sample.traffic).2.
Proof.
  apply Forall_forall. intros [line|c m] Hin; [exact I|].
  apply (relay_never_writes_to_absent_node sample.rejecting sample.writes sample.sessions
           sample.traffic "C" c m).
  - reflexivity.
  - intros conn Hopen. unfold sample.traffic in Hopen.
    repeat (apply elem_of_cons in Hopen as [Hopen|Hopen]; [discriminate Hopen|]).
    apply elem_of_nil in Hopen. exact Hopen.
  - exact Hin.
Defined.

Lemma relay_connection_lifecycle_witness :
  (server.relay_run sample.rejecting sample.writes sample.sessions
     (server.Opens "C" 3%nat :: map (server.Receives "C") sample.visit)).1 !! "C" =
    Some 3%nat /\
  (server.relay_run sample.rejecting sample.writes sample.sessions
     (server.Opens "C" 3%nat :: map (server.Receives "C") sample.visit ++
      [server.Receives "C" (server.ReadFails "EOF")])).1 = sample.sessions.
Proof.
  apply (relay_connection_lifecycle sample.rejecting sample.writes sample.sessions
           "C" 3%nat sample.visit "EOF").
  - reflexivity.
  - unfold sample.visit. repeat constructor; intros e; discriminate.
Defined.
